(** * jLogger: an asynchronous, level-partitioned logger

    A shallow embedding of [loger.go].  The file has four layers:

    - [Text]: the pieces of [fmt], [strings], [time] and [log] that the
      logger calls, over byte strings;
    - [Logger] data and the operations that run on the caller's goroutine
      ([NewLogger], [Info], [Debug], [Error]);
    - the goroutines ([processLogMessages], [flushBufferPeriodically],
      [Close], all of them through [flushBuffer]) as an interleaving
      machine whose atomic steps are the mutex operations, the channel
      operations and the single writes to a [log.Logger];
    - invariants of that machine and the properties derived from them. *)

From Stdlib Require Import ZArith List String Ascii Bool Lia Permutation.
Import ListNotations.
Local Open Scope string_scope.
Local Open Scope Z_scope.

(* ------------------------------------------------------------------ *)
(** ** Text: bytes, decimal numbers, [fmt.Sprintln], [strings.TrimSpace] *)

Module Text.

Definition byte (n : nat) : ascii := ascii_of_nat n.
Definition LF : string := String (byte 10) EmptyString.

(** [digit d] is the ASCII digit of [d] for [0 <= d < 10]. *)
Definition digit (d : Z) : ascii := byte (48 + Z.to_nat d).

Definition isDigit (c : ascii) : bool :=
  (48 <=? nat_of_ascii c)%nat && (nat_of_ascii c <=? 57)%nat.

Arguments digit : simpl never.
Arguments isDigit : simpl never.

(** The [k] low-order decimal digits of [u], most significant firstByte,
    in front of [acc]. *)
Fixpoint fixed (k : nat) (u : Z) (acc : string) : string :=
  match k with
  | O => acc
  | S k' => fixed k' (u / 10) (String (digit (u mod 10)) acc)
  end.

(** Decimal digits of [u >= 0] without padding. *)
Fixpoint utoa_fuel (fuel : nat) (u : Z) (acc : string) : string :=
  match fuel with
  | O => acc
  | S f =>
      let acc' := String (digit (u mod 10)) acc in
      if u <? 10 then acc' else utoa_fuel f (u / 10) acc'
  end.

Definition utoa (u : Z) : string := utoa_fuel (S (Z.to_nat (Z.log2 u))) u "".

Definition itoa (x : Z) : string :=
  if x <? 0 then "-" ++ utoa (Z.abs x) else utoa x.

(** [time.appendInt]: the sign, then the digits, zero-padded on the left
    to [width] when they are fewer. *)
Definition appendInt (x : Z) (width : nat) : string :=
  let u := Z.abs x in
  (if x <? 0 then "-" else "") ++
  (if u <? 10 ^ Z.of_nat width then fixed width u "" else utoa u).

Fixpoint allb (p : ascii -> bool) (s : string) : bool :=
  match s with
  | EmptyString => true
  | String c r => p c && allb p r
  end.

Fixpoint countBytes (p : ascii -> bool) (s : string) : nat :=
  match s with
  | EmptyString => O
  | String c r => ((if p c then 1 else 0) + countBytes p r)%nat
  end.

Definition isLF (c : ascii) : bool := (nat_of_ascii c =? 10)%nat.

(** Number of line terminators in a chunk of output. *)
Definition lines (s : string) : nat := countBytes isLF s.

Fixpoint srev (s : string) : string :=
  match s with
  | EmptyString => EmptyString
  | String c r => srev r ++ String c EmptyString
  end.

Definition firstByte (s : string) : option ascii :=
  match s with EmptyString => None | String c _ => Some c end.

Definition lastByte (s : string) : option ascii := firstByte (srev s).

(** *** White space, as [unicode.IsSpace] sees it in UTF-8 *)

(** The six ASCII spaces: TAB, LF, VT, FF, CR and SPACE. *)
Definition asciiSpace (c : ascii) : bool :=
  let n := nat_of_ascii c in
  ((9 <=? n) && (n <=? 13) || (n =? 32))%nat.

(** U+0085 and U+00A0. *)
Definition space2 (a b : ascii) : bool :=
  let a := nat_of_ascii a in
  let b := nat_of_ascii b in
  ((a =? 194) && ((b =? 133) || (b =? 160)))%nat.

(** U+1680, U+2000..U+200A, U+2028, U+2029, U+202F, U+205F, U+3000. *)
Definition space3 (a b c : ascii) : bool :=
  let a := nat_of_ascii a in
  let b := nat_of_ascii b in
  let c := nat_of_ascii c in
  ((a =? 225) && (b =? 154) && (c =? 128)
   || (a =? 226) && (b =? 128)
      && ((128 <=? c) && (c <=? 138) || (c =? 168) || (c =? 169) || (c =? 175))
   || (a =? 226) && (b =? 129) && (c =? 159)
   || (a =? 227) && (b =? 128) && (c =? 128))%nat.

(** Drops the leading white space of [s]; with [fwd = false] the string
    is read backwards, so multi-byte encodings arrive lastByte byte firstByte. *)
Fixpoint dropSpace (fwd : bool) (s : string) : string :=
  match s with
  | EmptyString => s
  | String a r =>
      if asciiSpace a then dropSpace fwd r
      else
        match r with
        | EmptyString => s
        | String b r2 =>
            if (if fwd then space2 a b else space2 b a) then dropSpace fwd r2
            else
              match r2 with
              | EmptyString => s
              | String c r3 =>
                  if (if fwd then space3 a b c else space3 c b a)
                  then dropSpace fwd r3
                  else s
              end
        end
  end.

(** [strings.TrimSpace]: leading and trailing white space removed. *)
Definition TrimSpace (s : string) : string :=
  srev (dropSpace false (srev (dropSpace true s))).

(** [fmt.Sprintln] on operands already formatted with [%v]: a space
    between operands, always, and a newline at the end. *)
Definition Sprintln (ops : list string) : string :=
  String.concat " " ops ++ LF.

(** What one call [Println(ops...)] on a [log.Logger] hands to its writer when
    the logger was made by [log.New(w, prefix, 0)]: the prefix, the
    [Sprintln] of the operands, and no second newline. *)
Definition Println (prefix : string) (ops : list string) : string :=
  prefix ++ Sprintln ops.

End Text.

Import Text.

(* ------------------------------------------------------------------ *)
(** ** Data *)

(** A [time.Time], as the civil date and clock reading that
    [Time.Format] prints. *)
Record Time := mkTime {
  year : Z; month : Z; day : Z;
  hour : Z; minute : Z; second : Z; nanosecond : Z
}.

Definition validTime (t : Time) : Prop :=
  0 <= year t <= 9999 /\ 1 <= month t <= 12 /\ 1 <= day t <= 31 /\
  0 <= hour t < 24 /\ 0 <= minute t < 60 /\ 0 <= second t < 60 /\
  0 <= nanosecond t < 1000000000.

(** [t.Format(timeFormat)] for [timeFormat = "2006-01-02 15:04:05.000"]:
    the year on four digits, month, day, hour, minute and second on two,
    and the first three of the nine digits of the nanoseconds. *)
Definition Format (t : Time) : string :=
  appendInt (year t) 4 ++ "-" ++ appendInt (month t) 2 ++ "-" ++
  appendInt (day t) 2 ++ " " ++ appendInt (hour t) 2 ++ ":" ++
  appendInt (minute t) 2 ++ ":" ++ appendInt (second t) 2 ++ "." ++
  substring 0 3 (appendInt (nanosecond t) 9).

(** [n] decimal digits. *)
Definition digits (n : nat) (s : string) : Prop :=
  String.length s = n /\ allb isDigit s = true.

(** A string of the shape [YYYY-MM-DD HH:MM:SS.mmm]. *)
Definition stamp (s : string) : Prop :=
  exists y mo d h mi sec ms,
    s = y ++ "-" ++ mo ++ "-" ++ d ++ " " ++ h ++ ":" ++ mi ++ ":" ++
        sec ++ "." ++ ms /\
    digits 4 y /\ digits 2 mo /\ digits 2 d /\ digits 2 h /\ digits 2 mi /\
    digits 2 sec /\ digits 3 ms.

(** Neither the first nor the last byte is an ASCII white space. *)
Definition trimmed (s : string) : Prop :=
  (forall c, firstByte s = Some c -> asciiSpace c = false) /\
  (forall c, lastByte s = Some c -> asciiSpace c = false).

(** The operands of a logging call ([interface{}] values). *)
Inductive value :=
| VString (s : string)
| VInt (n : Z)
| VBool (b : bool).

(** The [%v] rendering of an operand. *)
Definition formatV (v : value) : string :=
  match v with
  | VString s => s
  | VInt n => itoa n
  | VBool b => if b then "true" else "false"
  end.

(** The [%v] rendering of a [[]interface{}] passed as ONE operand. *)
Definition formatSlice (v : list value) : string :=
  "[" ++ String.concat " " (map formatV v) ++ "]".

Record logMessage := mkMsg {
  level : string;
  timestamp : Time;
  msg : list value
}.

(** The three severities index the three buffers, mutexes and loggers:
    [buffer l INFO] is [l.bufferInfo], [mu l DEBUG] is [l.debug_mu],
    [sink l ERROR] is what went through [l.ErrorLogger], and so on. *)
Inductive lvl := INFO | DEBUG | ERROR.

Definition lvl_eqb (a b : lvl) : bool :=
  match a, b with
  | INFO, INFO | DEBUG, DEBUG | ERROR, ERROR => true
  | _, _ => false
  end.

Definition name (L : lvl) : string :=
  match L with INFO => "INFO" | DEBUG => "DEBUG" | ERROR => "ERROR" end.

(** The prefix given to [log.New] for each logger. *)
Definition prefix (L : lvl) : string :=
  match L with INFO => "INFO: " | DEBUG => "DEBUG: " | ERROR => "ERROR: " end.

(** The goroutines that take a buffer mutex: the dispatcher
    ([processLogMessages]), the ticker ([flushBufferPeriodically]) and
    the [i]-th invocation of [Close]. *)
Inductive tid := TDispatcher | TTicker | TCloser (i : nat).

Definition tid_eqb (a b : tid) : bool :=
  match a, b with
  | TDispatcher, TDispatcher | TTicker, TTicker => true
  | TCloser i, TCloser j => Nat.eqb i j
  | _, _ => false
  end.

(** The [Logger] struct.  A sink is the list of chunks written through
    the [log.Logger] of that severity, oldest first; the channel is the
    list of queued messages, oldest first. *)
Record Logger := mkLogger {
  sink : lvl -> list string;
  logChannel : list logMessage;
  chanClosed : bool;
  buffer : lvl -> list logMessage;
  bufferSize : Z;
  flushInterval : Z;
  mu : lvl -> option tid;
  once_done : bool;
  once_m : option nat;
  wg : Z;
  closed : bool;
  log_level : string
}.

(** [make(chan logMessage, 5000)] *)
Definition chanCap : nat := 5000.

Definition upd {A} (f : lvl -> A) (L : lvl) (a : A) : lvl -> A :=
  fun L' => if lvl_eqb L' L then a else f L'.

Definition set_sink (l : Logger) (L : lvl) (x : list string) : Logger :=
  mkLogger (upd (sink l) L x) (logChannel l) (chanClosed l) (buffer l)
    (bufferSize l) (flushInterval l) (mu l) (once_done l) (once_m l) (wg l)
    (closed l) (log_level l).

Definition set_logChannel (l : Logger) (q : list logMessage) : Logger :=
  mkLogger (sink l) q (chanClosed l) (buffer l)
    (bufferSize l) (flushInterval l) (mu l) (once_done l) (once_m l) (wg l)
    (closed l) (log_level l).

Definition set_chanClosed (l : Logger) (b : bool) : Logger :=
  mkLogger (sink l) (logChannel l) b (buffer l)
    (bufferSize l) (flushInterval l) (mu l) (once_done l) (once_m l) (wg l)
    (closed l) (log_level l).

Definition set_buffer (l : Logger) (L : lvl) (x : list logMessage) : Logger :=
  mkLogger (sink l) (logChannel l) (chanClosed l) (upd (buffer l) L x)
    (bufferSize l) (flushInterval l) (mu l) (once_done l) (once_m l) (wg l)
    (closed l) (log_level l).

Definition set_mu (l : Logger) (L : lvl) (x : option tid) : Logger :=
  mkLogger (sink l) (logChannel l) (chanClosed l) (buffer l)
    (bufferSize l) (flushInterval l) (upd (mu l) L x) (once_done l) (once_m l)
    (wg l) (closed l) (log_level l).

Definition set_once_done (l : Logger) (b : bool) : Logger :=
  mkLogger (sink l) (logChannel l) (chanClosed l) (buffer l)
    (bufferSize l) (flushInterval l) (mu l) b (once_m l) (wg l)
    (closed l) (log_level l).

Definition set_once_m (l : Logger) (x : option nat) : Logger :=
  mkLogger (sink l) (logChannel l) (chanClosed l) (buffer l)
    (bufferSize l) (flushInterval l) (mu l) (once_done l) x (wg l)
    (closed l) (log_level l).

Definition set_wg (l : Logger) (n : Z) : Logger :=
  mkLogger (sink l) (logChannel l) (chanClosed l) (buffer l)
    (bufferSize l) (flushInterval l) (mu l) (once_done l) (once_m l) n
    (closed l) (log_level l).

Definition set_log_level (l : Logger) (s : string) : Logger :=
  mkLogger (sink l) (logChannel l) (chanClosed l) (buffer l)
    (bufferSize l) (flushInterval l) (mu l) (once_done l) (once_m l) (wg l)
    (closed l) s.

(** One [Println] on the logger of severity [L]. *)
Definition write (l : Logger) (L : lvl) (ops : list string) : Logger :=
  set_sink l L (sink l L ++ [Println (prefix L) ops])%list.

(* ------------------------------------------------------------------ *)
(** ** Construction *)

(** How a call of [NewLogger] ends: [log.Fatalf] terminates the process,
    or the call returns [(nil, err)], or it returns [(logger, nil)]. *)
Inductive construction :=
| Fatal
| Failed (err : string)
| Created (l : Logger).

(** [NewLogger].  [mkdirOk] is whether [os.MkdirAll(logDir, 0755)]
    succeeded.  The file names and the rotation settings of the three
    lumberjack writers stay inside the sinks and are not represented; the
    returned logger is the struct literal, with [wg.Add(1)] done. *)
Definition NewLogger (mkdirOk : bool) (logDir logPrefix : string)
    (bufferSize : Z) (flushInterval : Z) (log_level : string) : construction :=
  if negb mkdirOk then Fatal
  else if bufferSize <=? 0 then Failed "bufferSize必须大于0"
  else Created
    (mkLogger (fun _ => []) [] false (fun _ => []) bufferSize flushInterval
       (fun _ => None) false None 1 false log_level).

(* ------------------------------------------------------------------ *)
(** ** The logging calls *)

(** The non-blocking send [select { case ch <- m: ... default: ... }]. *)
Inductive send :=
| Sent (l : Logger)
| Full
| SendOnClosed.

Definition trySend (l : Logger) (m : logMessage) : send :=
  if chanClosed l then SendOnClosed
  else if (List.length (logChannel l) <? chanCap)%nat
       then Sent (set_logChannel l (logChannel l ++ [m])%list)
       else Full.

(** The text the logging calls put in front of a direct write. *)
Definition note (L : lvl) : string :=
  match L with
  | INFO => "日志通道已满，进入主线程写入日志:"
  | _ => "日志通道已满，进入主线程写入日志"
  end.

(** How a logging call ends.  The Go methods return nothing; a call
    either does nothing, or queued its message, or wrote it directly, or
    panicked with "send on closed channel". *)
Inductive emitted :=
| Skipped
| Queued (l : Logger)
| Direct (l : Logger)
| Panic.

Definition emit (l : Logger) (L : lvl) (v : list value) (now : Time)
    : emitted :=
  match trySend l (mkMsg (name L) now v) with
  | Sent l' => Queued l'
  | Full => Direct (write l L [note L; formatSlice v])
  | SendOnClosed => Panic
  end.

Definition Info (l : Logger) (v : list value) (now : Time) : emitted :=
  if (log_level l =? "INFO")%string || (log_level l =? "DEBUG")%string
  then emit l INFO v now
  else Skipped.

Definition Debug (l : Logger) (v : list value) (now : Time) : emitted :=
  if (log_level l =? "DEBUG")%string
  then emit l DEBUG v now
  else Skipped.

Definition Error (l : Logger) (v : list value) (now : Time) : emitted :=
  emit l ERROR v now.

(** The logger a caller is left with, when the call returns. *)
Definition after (l : Logger) (e : emitted) : option Logger :=
  match e with
  | Skipped => Some l
  | Queued l' | Direct l' => Some l'
  | Panic => None
  end.

(* ------------------------------------------------------------------ *)
(** ** The goroutines *)

Local Open Scope list_scope.

(** The line [flushBuffer] prints for one message. *)
Definition render (L : lvl) (m : logMessage) : string :=
  Println (prefix L)
    [Format (timestamp m); TrimSpace (Sprintln (map formatV (msg m)))].

(** The line a logging call prints itself when the channel is full. *)
Definition directLine (L : lvl) (v : list value) : string :=
  Println (prefix L) [note L; formatSlice v].

(** Program points of [flushBuffer]. *)
Inductive fpc :=
| FLock                              (* mu.Lock() *)
| FCopy                              (* tmp := make(..); copy(tmp, *buffer) *)
| FReset (tmp : list logMessage)     (* *buffer = ( *buffer)[:0] *)
| FUnlock (tmp : list logMessage)    (* mu.Unlock() *)
| FWrite (tmp : list logMessage).    (* for _, msg := range tmp *)

(** Program points of [processLogMessages]. *)
Inductive dpc :=
| DRecv                              (* for msg := range l.logChannel *)
| DLock (m : logMessage)             (* the if-chain on msg.level; Lock() *)
| DAppend (L : lvl) (m : logMessage) (* append; needFlush = len >= size *)
| DUnlock (L : lvl) (needFlush : bool)
| DFlush (L : lvl) (f : fpc)         (* if needFlush { l.flush..Buffer() } *)
| DDone.                             (* after the deferred wg.Done() *)

(** Program points of [flushBufferPeriodically]. *)
Inductive tpc :=
| TStart                             (* time.NewTicker(l.flushInterval) *)
| TWait                              (* for range ticker.C *)
| TFlush (L : lvl) (f : fpc).

(** Program points of one invocation of [Close], with [sync.Once.Do]
    spelled out: the fast-path load of [done], [doSlow] taking the mutex
    [m], the second load, the function, the deferred store and unlock. *)
Inductive cpc :=
| CIdle                              (* not invoked yet *)
| CLoad                              (* if o.done.Load() == 0 *)
| CLockM                             (* o.m.Lock() *)
| CCheck                             (* if o.done.Load() == 0 *)
| CCloseChan                         (* close(l.logChannel) *)
| CWait                              (* l.wg.Wait() *)
| CFlush (L : lvl) (f : fpc)
| CStore                             (* o.done.Store(1) *)
| CUnlockM                           (* o.m.Unlock() *)
| CReturned.

(** The state of the program: the logger, where each goroutine is, and
    history variables ([queued], [direct], [flushes], [runs]) that no
    step reads. *)
Record State := mkState {
  lg : Logger;
  dispatcher : dpc;
  ticker : tpc;
  closer : nat -> cpc;
  queued : list logMessage;
  direct : lvl -> list (list value);
  flushes : list (tid * lvl * list logMessage);
  runs : nat
}.

Definition set_lg (s : State) (l : Logger) : State :=
  mkState l (dispatcher s) (ticker s) (closer s) (queued s) (direct s)
    (flushes s) (runs s).

Definition set_dispatcher (s : State) (d : dpc) : State :=
  mkState (lg s) d (ticker s) (closer s) (queued s) (direct s)
    (flushes s) (runs s).

Definition set_ticker (s : State) (t : tpc) : State :=
  mkState (lg s) (dispatcher s) t (closer s) (queued s) (direct s)
    (flushes s) (runs s).

Definition set_closer (s : State) (i : nat) (c : cpc) : State :=
  mkState (lg s) (dispatcher s) (ticker s)
    (fun j => if Nat.eqb j i then c else closer s j) (queued s) (direct s)
    (flushes s) (runs s).

Definition add_queued (s : State) (m : logMessage) : State :=
  mkState (lg s) (dispatcher s) (ticker s) (closer s) (queued s ++ [m])
    (direct s) (flushes s) (runs s).

Definition add_direct (s : State) (L : lvl) (v : list value) : State :=
  mkState (lg s) (dispatcher s) (ticker s) (closer s) (queued s)
    (upd (direct s) L (direct s L ++ [v])) (flushes s) (runs s).

Definition add_flush (s : State) (x : tid * lvl * list logMessage) : State :=
  mkState (lg s) (dispatcher s) (ticker s) (closer s) (queued s) (direct s)
    (flushes s ++ [x]) (runs s).

Definition add_run (s : State) : State :=
  mkState (lg s) (dispatcher s) (ticker s) (closer s) (queued s) (direct s)
    (flushes s) (S (runs s)).

(** The state when [NewLogger] returns: both goroutines started. *)
Definition boot (l : Logger) : State :=
  mkState l DRecv TStart (fun _ => CIdle) [] (fun _ => []) [] O.

(** One step of [flushBuffer] run by goroutine [t] on the buffer, mutex
    and logger of severity [L].  [None]: the goroutine is blocked.
    [Some (None, _)]: the function returned. *)
Definition flushBuffer (t : tid) (L : lvl) (f : fpc) (s : State)
    : option (option fpc * State) :=
  let l := lg s in
  match f with
  | FLock =>
      match mu l L with
      | None => Some (Some FCopy, set_lg s (set_mu l L (Some t)))
      | Some _ => None
      end
  | FCopy =>
      Some (Some (FReset (buffer l L)), add_flush s (t, L, buffer l L))
  | FReset tmp => Some (Some (FUnlock tmp), set_lg s (set_buffer l L []))
  | FUnlock tmp => Some (Some (FWrite tmp), set_lg s (set_mu l L None))
  | FWrite [] => Some (None, s)
  | FWrite (m :: tmp) =>
      Some (Some (FWrite tmp),
            set_lg s (set_sink l L (sink l L ++ [render L m])))
  end.

(** The if-chain of [processLogMessages] on [msg.level]. *)
Definition levelOf (s : string) : option lvl :=
  if (s =? "INFO")%string then Some INFO
  else if (s =? "DEBUG")%string then Some DEBUG
  else if (s =? "ERROR")%string then Some ERROR
  else None.

Definition processLogMessages (s : State) : option State :=
  let l := lg s in
  match dispatcher s with
  | DRecv =>
      match logChannel l with
      | m :: q => Some (set_dispatcher (set_lg s (set_logChannel l q)) (DLock m))
      | [] =>
          if chanClosed l
          then Some (set_dispatcher (set_lg s (set_wg l (wg l - 1))) DDone)
          else None
      end
  | DLock m =>
      match levelOf (level m) with
      | Some L =>
          match mu l L with
          | None =>
              Some (set_dispatcher (set_lg s (set_mu l L (Some TDispatcher)))
                      (DAppend L m))
          | Some _ => None
          end
      | None => Some (set_dispatcher s DRecv)
      end
  | DAppend L m =>
      let b := buffer l L ++ [m] in
      Some (set_dispatcher (set_lg s (set_buffer l L b))
              (DUnlock L (bufferSize l <=? Z.of_nat (List.length b))))
  | DUnlock L needFlush =>
      Some (set_dispatcher (set_lg s (set_mu l L None))
              (if needFlush then DFlush L FLock else DRecv))
  | DFlush L f =>
      match flushBuffer TDispatcher L f s with
      | Some (Some f', s') => Some (set_dispatcher s' (DFlush L f'))
      | Some (None, s') => Some (set_dispatcher s' DRecv)
      | None => None
      end
  | DDone => None
  end.

(** [ETicker] at [TWait] is the arrival of a tick; at [TStart] a
    non-positive interval makes [time.NewTicker] panic. *)
Definition flushBufferPeriodically (s : State) : option State :=
  match ticker s with
  | TStart => if flushInterval (lg s) <=? 0 then None
              else Some (set_ticker s TWait)
  | TWait => Some (set_ticker s (TFlush INFO FLock))
  | TFlush L f =>
      match flushBuffer TTicker L f s with
      | Some (Some f', s') => Some (set_ticker s' (TFlush L f'))
      | Some (None, s') =>
          Some (set_ticker s'
                  match L with
                  | INFO => TFlush DEBUG FLock
                  | DEBUG => TFlush ERROR FLock
                  | ERROR => TWait
                  end)
      | None => None
      end
  end.

(** One step of the [i]-th invocation of [Close]. *)
Definition Close (i : nat) (s : State) : option State :=
  let l := lg s in
  match closer s i with
  | CIdle => Some (set_closer s i CLoad)
  | CLoad => Some (set_closer s i (if once_done l then CReturned else CLockM))
  | CLockM =>
      match once_m l with
      | None => Some (set_closer (set_lg s (set_once_m l (Some i))) i CCheck)
      | Some _ => None
      end
  | CCheck =>
      if once_done l then Some (set_closer s i CUnlockM)
      else Some (set_closer (add_run s) i CCloseChan)
  | CCloseChan =>
      if chanClosed l then None
      else Some (set_closer (set_lg s (set_chanClosed l true)) i CWait)
  | CWait =>
      if wg l =? 0 then Some (set_closer s i (CFlush INFO FLock)) else None
  | CFlush L f =>
      match flushBuffer (TCloser i) L f s with
      | Some (Some f', s') => Some (set_closer s' i (CFlush L f'))
      | Some (None, s') =>
          Some (set_closer s' i
                  match L with
                  | INFO => CFlush DEBUG FLock
                  | DEBUG => CFlush ERROR FLock
                  | ERROR => CStore
                  end)
      | None => None
      end
  | CStore => Some (set_closer (set_lg s (set_once_done l true)) i CUnlockM)
  | CUnlockM => Some (set_closer (set_lg s (set_once_m l None)) i CReturned)
  | CReturned => None
  end.

(** The two ways a logging call that is not skipped changes the state. *)
Definition enqueue (s : State) (L : lvl) (v : list value) (now : Time)
    : State :=
  add_queued
    (set_lg s (set_logChannel (lg s)
                 (logChannel (lg s) ++ [mkMsg (name L) now v])))
    (mkMsg (name L) now v).

Definition bypass (s : State) (L : lvl) (v : list value) : State :=
  add_direct
    (set_lg s (set_sink (lg s) L (sink (lg s) L ++ [directLine L v]))) L v.

(** What the scheduler can pick: a whole logging call on some caller's
    goroutine, or one step of the dispatcher, of the ticker, or of the
    [i]-th invocation of [Close]. *)
Inductive event :=
| EInfo (v : list value) (now : Time)
| EDebug (v : list value) (now : Time)
| EError (v : list value) (now : Time)
| EDispatcher
| ETicker
| EClose (i : nat).

Definition called (s : State) (L : lvl) (v : list value) (now : Time)
    (e : emitted) : option State :=
  match e with
  | Skipped => Some s
  | Queued l' => Some (add_queued (set_lg s l') (mkMsg (name L) now v))
  | Direct l' => Some (add_direct (set_lg s l') L v)
  | Panic => None
  end.

(** [None]: the event is not enabled (the goroutine is blocked or has
    ended) or it panics. *)
Definition step (s : State) (e : event) : option State :=
  match e with
  | EInfo v now => called s INFO v now (Info (lg s) v now)
  | EDebug v now => called s DEBUG v now (Debug (lg s) v now)
  | EError v now => called s ERROR v now (Error (lg s) v now)
  | EDispatcher => processLogMessages s
  | ETicker => flushBufferPeriodically s
  | EClose i => Close i s
  end.

Fixpoint run (s : State) (es : list event) : option State :=
  match es with
  | [] => Some s
  | e :: es' =>
      match step s e with
      | Some s' => run s' es'
      | None => None
      end
  end.

(** The states the program can be in after [NewLogger] returned [l]. *)
Definition reachable (s : State) : Prop :=
  exists mkdirOk logDir logPrefix size interval min l es,
    NewLogger mkdirOk logDir logPrefix size interval min = Created l /\
    run (boot l) es = Some s.

(* ------------------------------------------------------------------ *)
(** ** Vocabulary of the properties *)

(** A logging call of severity [L] produced output: its message is the
    newest element of the channel, or its direct line is the newest
    chunk of the sink of [L]. *)
Definition produced (l : Logger) (L : lvl) (v : list value) (now : Time)
    (e : emitted) : Prop :=
  (exists l', e = Queued l' /\
     logChannel l' = logChannel l ++ [mkMsg (name L) now v] /\
     sink l' = sink l) \/
  (exists l', e = Direct l' /\
     sink l' L = sink l L ++ [directLine L v] /\
     logChannel l' = logChannel l).

(** The payload part of a flushed line. *)
Definition payload (m : logMessage) : string :=
  TrimSpace (Sprintln (map formatV (msg m))).

(** The line of a message as the specification words it: the time
    stamp, a space, the space-joined payload without its trailing white
    space, and the line end. *)
Definition spec_line (m : logMessage) : string :=
  (Format (timestamp m) ++ " " ++
   srev (dropSpace false (srev (String.concat " " (map formatV (msg m))))) ++
   LF)%string.

(** The logger [NewLogger] returns for a size and an interval. *)
Definition fresh (size interval : Z) (min : string) : Logger :=
  mkLogger (fun _ => []) [] false (fun _ => []) size interval
    (fun _ => None) false None 1 false min.

(** Sample data for the closed examples. *)
Definition t0 : Time := mkTime 2024 1 2 3 4 5 6789000.
Definition l0 : Logger := fresh 2 10000000000 "DEBUG".
Definition lInfo : Logger := fresh 2 10000000000 "INFO".
Definition lError : Logger := fresh 2 10000000000 "ERROR".


(* ------------------------------------------------------------------ *)
(** ** Invariants of the goroutines *)

(** The program points of [flushBuffer] between [Lock] and [Unlock]. *)
Definition critical (f : fpc) : bool :=
  match f with
  | FCopy | FReset _ | FUnlock _ => true
  | FLock | FWrite _ => false
  end.

(** The call of [flushBuffer] a goroutine is in, if any. *)
Definition d_flushing (d : dpc) : option (lvl * fpc) :=
  match d with DFlush L f => Some (L, f) | _ => None end.

Definition t_flushing (t : tpc) : option (lvl * fpc) :=
  match t with TFlush L f => Some (L, f) | _ => None end.

Definition c_flushing (c : cpc) : option (lvl * fpc) :=
  match c with CFlush L f => Some (L, f) | _ => None end.

Definition flushing (s : State) (t : tid) : option (lvl * fpc) :=
  match t with
  | TDispatcher => d_flushing (dispatcher s)
  | TTicker => t_flushing (ticker s)
  | TCloser i => c_flushing (closer s i)
  end.

Definition f_holds (x : option (lvl * fpc)) (L : lvl) : bool :=
  match x with
  | Some (L', f) => lvl_eqb L L' && critical f
  | None => false
  end.

Definition d_holds (d : dpc) (L : lvl) : bool :=
  match d with
  | DAppend L' _ | DUnlock L' _ => lvl_eqb L L'
  | _ => f_holds (d_flushing d) L
  end.

(** Goroutine [t] is between [Lock] and [Unlock] of the mutex of [L]. *)
Definition holds (s : State) (t : tid) (L : lvl) : bool :=
  match t with
  | TDispatcher => d_holds (dispatcher s) L
  | TTicker => f_holds (t_flushing (ticker s)) L
  | TCloser i => f_holds (c_flushing (closer s i)) L
  end.

(** The invocation is inside [doSlow], between [m.Lock] and [m.Unlock]. *)
Definition in_slow (c : cpc) : bool :=
  match c with
  | CCheck | CCloseChan | CWait | CFlush _ _ | CStore | CUnlockM => true
  | CIdle | CLoad | CLockM | CReturned => false
  end.

(** The invocation is running the function given to [once.Do]. *)
Definition running (c : cpc) : bool :=
  match c with
  | CCloseChan | CWait | CFlush _ _ | CStore => true
  | _ => false
  end.

(** How a logging call relates the states before and after it. *)
Inductive logging_call (s s' : State) : Prop :=
| call_skipped : s' = s -> logging_call s s'
| call_queued L v now :
    chanClosed (lg s) = false -> s' = enqueue s L v now -> logging_call s s'
| call_direct L v :
    chanClosed (lg s) = false -> s' = bypass s L v -> logging_call s s'.

(** Mutual exclusion: a buffer mutex is held by exactly the goroutine
    inside its critical section; between the copy and the reset of a
    flush the buffer is what was copied; the mutex of [once] is held by
    exactly the invocation inside [doSlow]. *)
Definition mutex_inv (s : State) : Prop :=
  (forall t L, mu (lg s) L = Some t <-> holds s t L = true) /\
  (forall t L tmp, flushing s t = Some (L, FReset tmp) ->
                   buffer (lg s) L = tmp) /\
  (forall i, once_m (lg s) = Some i <-> in_slow (closer s i) = true).

(** The dispatcher has left its loop. *)
Definition d_done (d : dpc) : bool :=
  match d with DDone => true | _ => false end.

(** The invocation has closed the channel and is still in the function. *)
Definition past_close (c : cpc) : bool :=
  match c with CWait | CFlush _ _ | CStore => true | _ => false end.

(** The invocation has returned from [wg.Wait]. *)
Definition past_wait (c : cpc) : bool :=
  match c with CFlush _ _ | CStore => true | _ => false end.

Definition lvl_ltb (a b : lvl) : bool :=
  match a, b with
  | INFO, DEBUG | INFO, ERROR | DEBUG, ERROR => true
  | _, _ => false
  end.

Definition swapped (f : fpc) : bool :=
  match f with FUnlock _ | FWrite _ => true | _ => false end.

(** The invocation has already reset the buffer of [L] in its final
    flushes. *)
Definition emptied (c : cpc) (L : lvl) : bool :=
  match c with
  | CFlush L' f => lvl_ltb L L' || (lvl_eqb L L' && swapped f)
  | CStore => true
  | _ => false
  end.

(** The invocation has left [doSlow]'s work behind it. *)
Definition after_once (c : cpc) : bool :=
  match c with CUnlockM | CReturned => true | _ => false end.

(** Whether the function given to [once.Do] has been entered. *)
Definition entered (s : State) : nat :=
  if once_done (lg s) then 1%nat
  else match once_m (lg s) with
       | Some i => if running (closer s i) then 1%nat else O
       | None => O
       end.

(** The life cycle: the wait group counts the dispatcher; the dispatcher
    ends only on a closed and drained channel; an invocation of [Close]
    goes past [wg.Wait] only after that, and it leaves each buffer empty
    behind it; [done] is set only after all this; the function is
    entered [runs] times. *)
Definition life_inv (s : State) : Prop :=
  wg (lg s) = (if d_done (dispatcher s) then 0 else 1) /\
  (d_done (dispatcher s) = true -> chanClosed (lg s) = true) /\
  (d_done (dispatcher s) = true -> logChannel (lg s) = []) /\
  (forall i, past_close (closer s i) = true -> chanClosed (lg s) = true) /\
  (forall i, past_wait (closer s i) = true -> d_done (dispatcher s) = true) /\
  (forall i L, emptied (closer s i) L = true -> buffer (lg s) L = []) /\
  (once_done (lg s) = true -> chanClosed (lg s) = true) /\
  (once_done (lg s) = true -> d_done (dispatcher s) = true) /\
  (forall L, once_done (lg s) = true -> buffer (lg s) L = []) /\
  (forall i, running (closer s i) = true -> once_done (lg s) = false) /\
  (forall i, after_once (closer s i) = true -> once_done (lg s) = true) /\
  runs s = entered s.

(** The messages of severity [L], as the dispatcher sorts them. *)
Definition at_level (L : lvl) (m : logMessage) : bool :=
  match levelOf (level m) with
  | Some L' => lvl_eqb L L'
  | None => false
  end.

(** The messages a call of [flushBuffer] has taken out of the buffer and
    not written yet. *)
Definition carried (f : fpc) : list logMessage :=
  match f with FUnlock tmp | FWrite tmp => tmp | _ => [] end.

Definition f_carried (x : option (lvl * fpc)) (L : lvl) : list logMessage :=
  match x with
  | Some (L', f) => if lvl_eqb L L' then carried f else []
  | None => []
  end.

Definition d_held (d : dpc) (L : lvl) : list logMessage :=
  match d with
  | DLock m => if at_level L m then [m] else []
  | DAppend L' m => if lvl_eqb L L' then [m] else []
  | _ => f_carried (d_flushing d) L
  end.

Definition closer_held (s : State) (L : lvl) : list logMessage :=
  match once_m (lg s) with
  | Some i => f_carried (c_flushing (closer s i)) L
  | None => []
  end.

(** The messages of severity [L] that are accepted and not yet in the
    sink: in the channel, in the dispatcher's hands, in the buffer, or in
    the [tmp] of a flush. *)
Definition pending (s : State) (L : lvl) : list logMessage :=
  filter (at_level L) (logChannel (lg s)) ++ d_held (dispatcher s) L ++
  buffer (lg s) L ++ f_carried (t_flushing (ticker s)) L ++ closer_held s L.

(** The lines the logging calls so far are owed in the sink of [L]. *)
Definition owed (s : State) (L : lvl) : list string :=
  map (render L) (filter (at_level L) (queued s)) ++
  map (directLine L) (direct s L).

Definition occ (x : string) (l : list string) : nat :=
  count_occ string_dec l x.

(** Conservation: what is in the sink and what is still pending is, line
    for line, what the logging calls are owed. *)
Definition cons_inv (s : State) : Prop :=
  forall L x,
    (occ x (sink (lg s) L) + occ x (map (render L) (pending s L)) =
     occ x (owed s L))%nat.

(** All of it. *)
Definition inv (s : State) : Prop :=
  mutex_inv s /\ life_inv s /\ cons_inv s.

(* ------------------------------------------------------------------ *)
(** ** Sample executions *)

Definition final (o : option State) : State :=
  match o with Some s => s | None => boot l0 end.

Definition m_a : logMessage := mkMsg "INFO" t0 [VString "a"].

(** The ticker starts; [Info("a")] is called and the dispatcher puts the
    message into the INFO buffer (size 2, so no flush). *)
Definition trace_one : list event :=
  [ETicker; EInfo [VString "a"] t0] ++ repeat EDispatcher 4.

(** Then [Close] is called once and runs to its end, the dispatcher
    leaving its loop when the channel is closed. *)
Definition trace_close : list event :=
  trace_one ++ repeat (EClose 0) 5 ++ [EDispatcher] ++ repeat (EClose 0) 19.

Definition s_closed : State := final (run (boot l0) trace_close).

(** After [trace_one] a tick arrives instead, and the ticker goroutine
    runs [flushInfoBuffer] up to and including [mu.Unlock()]; only then
    is [Close] called, and it runs to its end. *)
Definition trace_race : list event :=
  trace_one ++ repeat ETicker 5 ++
  repeat (EClose 0) 5 ++ [EDispatcher] ++ repeat (EClose 0) 18.

Definition s_race : State := final (run (boot l0) trace_race).

(** After [trace_close], one more tick and the three flushes it causes. *)
Definition trace_tick_after_close : list event :=
  trace_close ++ repeat ETicker 16.

Definition s_ticked : State := final (run (boot l0) trace_tick_after_close).

(** Two invocations of [Close] interleaved: the second arrives while the
    first is inside the function, blocks on the mutex of [once], and
    returns after the first. *)
Definition trace_two_closes : list event :=
  trace_one ++ repeat (EClose 0) 5 ++ repeat (EClose 1) 2 ++ [EDispatcher] ++
  repeat (EClose 0) 19 ++ repeat (EClose 1) 3.

Definition s_twice : State := final (run (boot l0) trace_two_closes).

(** [flushBuffer] run by [t] from program point [f] to its return, with
    no other goroutine moving in between. *)
Fixpoint flushBuffer_run (fuel : nat) (t : tid) (L : lvl) (f : fpc)
    (s : State) : option State :=
  match fuel with
  | O => None
  | S k =>
      match flushBuffer t L f s with
      | Some (Some f', s') => flushBuffer_run k t L f' s'
      | Some (None, s') => Some s'
      | None => None
      end
  end.

(** After [trace_one], a tick, and the ticker goroutine in
    [flushInfoBuffer] between the copy and the reset. *)
Definition s_reset : State :=
  final (run (boot l0) (trace_one ++ repeat ETicker 3)).

Definition m_b : logMessage := mkMsg "INFO" t0 [VString "b"].

(** Two calls of [Info] on a logger of size 2, nothing dispatched yet. *)
Definition s_two : State :=
  final (run (boot l0) [EInfo [VString "a"] t0; EInfo [VString "b"] t0]).

(* ------------------------------------------------------------------ *)
(** ** Further vocabulary *)

(** The event that moves goroutine [t]. *)
Definition event_of (t : tid) : event :=
  match t with
  | TDispatcher => EDispatcher
  | TTicker => ETicker
  | TCloser i => EClose i
  end.

(** The level of the message is one of the three the dispatcher sorts. *)
Definition known (m : logMessage) : Prop := levelOf (level m) <> None.

(** The dispatcher has found the buffer of [L] full and has not yet
    emptied it. *)
Definition must_flush (d : dpc) (L : lvl) : bool :=
  match d with
  | DUnlock K true => lvl_eqb L K
  | DFlush K (FLock | FCopy | FReset _) => lvl_eqb L K
  | _ => false
  end.

(** Bounds: the channel never holds more than its capacity, and only
    messages of a known level; a buffer never holds more than
    [bufferSize] messages, and fewer whenever the dispatcher is not on
    its way to flush it. *)
Definition bound_inv (s : State) : Prop :=
  (List.length (logChannel (lg s)) <= chanCap)%nat /\
  Forall known (logChannel (lg s)) /\
  (forall m, dispatcher s = DLock m -> known m) /\
  (forall L, must_flush (dispatcher s) L = false ->
             Z.of_nat (List.length (buffer (lg s) L)) < bufferSize (lg s)) /\
  (forall L, Z.of_nat (List.length (buffer (lg s) L)) <= bufferSize (lg s)).

(** The invocation has already copied the buffer of [L] in its final
    flushes. *)
Definition copied (c : cpc) (L : lvl) : bool :=
  match c with
  | CFlush L' f =>
      lvl_ltb L L' ||
      (lvl_eqb L L' && match f with FLock | FCopy => false | _ => true end)
  | CStore => true
  | _ => false
  end.

(** How many final flushes of the buffer of [L] have been started. *)
Definition final_flushes (s : State) (L : lvl) : nat :=
  if once_done (lg s) then 1%nat
  else match once_m (lg s) with
       | Some i => if copied (closer s i) L then 1%nat else O
       | None => O
       end.

(** A recorded flush of the buffer of [L] by an invocation of [Close]. *)
Definition by_Close (L : lvl) (x : tid * lvl * list logMessage) : bool :=
  match x with
  | (TCloser _, K, _) => lvl_eqb K L
  | _ => false
  end.

(** The channel is closed only by the function given to [once.Do], and
    each of its three flushes is recorded as often as it was started. *)
Definition close_inv (s : State) : Prop :=
  (chanClosed (lg s) = true ->
     once_done (lg s) = true \/
     exists k, once_m (lg s) = Some k /\ past_close (closer s k) = true) /\
  (forall L,
     List.length (filter (by_Close L) (flushes s)) = final_flushes s L).

(** What one whole flush of the buffer of [L] does to the logger when
    nothing else moves: the buffer is emptied into its sink, in order,
    and everything else is as before. *)
Definition flush_effect (L : lvl) (l l' : Logger) : Prop :=
  buffer l' L = [] /\
  sink l' L = sink l L ++ map (render L) (buffer l L) /\
  (forall K, K <> L -> buffer l' K = buffer l K /\ sink l' K = sink l K) /\
  (forall K, mu l' K = mu l K) /\
  logChannel l' = logChannel l /\ chanClosed l' = chanClosed l /\
  once_done l' = once_done l /\ once_m l' = once_m l /\ wg l' = wg l /\
  bufferSize l' = bufferSize l /\ log_level l' = log_level l.

(** Where a goroutine goes when its flush of [L] returns. *)
Definition t_next (L : lvl) : tpc :=
  match L with
  | INFO => TFlush DEBUG FLock
  | DEBUG => TFlush ERROR FLock
  | ERROR => TWait
  end.

Definition c_next (L : lvl) : cpc :=
  match L with
  | INFO => CFlush DEBUG FLock
  | DEBUG => CFlush ERROR FLock
  | ERROR => CStore
  end.

(** The parts of the state no flush touches. *)
Definition same_history (s s' : State) : Prop :=
  queued s' = queued s /\ direct s' = direct s /\ runs s' = runs s.

(** What the dispatcher leaves alone. *)
Definition dispatcher_frame (s s' : State) : Prop :=
  (forall K, mu (lg s') K = mu (lg s) K) /\
  chanClosed (lg s') = chanClosed (lg s) /\
  once_done (lg s') = once_done (lg s) /\ once_m (lg s') = once_m (lg s) /\
  wg (lg s') = wg (lg s) /\ bufferSize (lg s') = bufferSize (lg s) /\
  log_level (lg s') = log_level (lg s) /\
  ticker s' = ticker s /\ closer s' = closer s /\ same_history s s'.

(** The lines of [ms] come after what was in the sink and in the buffer
    of [L], in order: written already, or still in the buffer. *)
Definition in_order (L : lvl) (s s' : State) (ms : list logMessage) : Prop :=
  sink (lg s') L ++ map (render L) (buffer (lg s') L) =
  sink (lg s) L ++ map (render L) (buffer (lg s) L ++ ms).

(* ------------------------------------------------------------------ *)
(** ** Size-triggered flushes *)

(** A recorded flush of the buffer of [L] by the dispatcher, and one by
    the ticker goroutine. *)
Definition by_size (L : lvl) (x : tid * lvl * list logMessage) : bool :=
  match x with
  | (TDispatcher, K, _) => lvl_eqb K L
  | _ => false
  end.

Definition by_tick (L : lvl) (x : tid * lvl * list logMessage) : bool :=
  match x with
  | (TTicker, K, _) => lvl_eqb K L
  | _ => false
  end.

(** What the flushes of the buffer of [L] that [processLogMessages]
    called took, one list for each flush, oldest first. *)
Definition size_flushes (s : State) (L : lvl) : list (list logMessage) :=
  map snd (filter (by_size L) (flushes s)).

(** No periodic flush has copied the buffer of [L] so far. *)
Definition no_tick (s : State) (L : lvl) : Prop :=
  filter (by_tick L) (flushes s) = [].

(** The messages of severity [L] the logging calls have put into the
    channel so far, in the order they were sent. *)
Definition sent (s : State) (L : lvl) : list logMessage :=
  filter (at_level L) (queued s).

(** The ticker goroutine has not reached the reset of the buffer of [L]
    in its first round. *)
Definition early (t : tpc) (L : lvl) : bool :=
  match t with
  | TStart | TWait => true
  | TFlush K f =>
      lvl_ltb K L ||
      (lvl_eqb K L && match f with FLock | FCopy => true | _ => false end)
  end.

(** The message the dispatcher has received and not yet appended. *)
Definition in_hand (d : dpc) (L : lvl) : list logMessage :=
  match d with
  | DLock m => if at_level L m then [m] else []
  | DAppend K m => if lvl_eqb L K then [m] else []
  | _ => []
  end.

(** The messages in the buffer of [L] that the dispatcher has not copied
    in a flush. *)
Definition stock (s : State) (L : lvl) : list logMessage :=
  match dispatcher s with
  | DFlush K (FReset _) => if lvl_eqb L K then [] else buffer (lg s) L
  | _ => buffer (lg s) L
  end.

(** The list holds as many messages as the size given to [NewLogger]. *)
Definition full (s : State) (b : list logMessage) : Prop :=
  Z.of_nat (List.length b) = bufferSize (lg s).

(** The dispatcher has taken every message of severity [L] out of the
    channel and appended it, and is not on its way to flush that
    buffer. *)
Definition dispatched (s : State) (L : lvl) : Prop :=
  filter (at_level L) (logChannel (lg s)) = [] /\
  in_hand (dispatcher s) L = [] /\
  must_flush (dispatcher s) L = false.

(** Without a periodic flush of the buffer of [L]: the flushes the
    dispatcher called each took a full buffer; what they took, then what
    is in the buffer, in the dispatcher's hand and in the channel, is
    what was sent, in that order; once the dispatcher has ended, fewer
    messages than the size are left over. *)
Definition size_inv (s : State) : Prop :=
  forall L, no_tick s L ->
    early (ticker s) L = true /\
    Forall (full s) (size_flushes s L) /\
    (must_flush (dispatcher s) L = true -> full s (buffer (lg s) L)) /\
    (d_done (dispatcher s) = false ->
       List.concat (size_flushes s L) ++ stock s L ++ in_hand (dispatcher s) L ++
       filter (at_level L) (logChannel (lg s)) = sent s L) /\
    (d_done (dispatcher s) = true ->
       exists rest,
         List.concat (size_flushes s L) ++ rest = sent s L /\
         Z.of_nat (List.length rest) < bufferSize (lg s)).

(** Two calls of [Info] on a logger of size 2, with the dispatcher and
    the start of the ticker goroutine in between, and the dispatcher run
    until it is back at the head of its loop. *)
Definition trace_size : list event :=
  [EInfo [VString "a"] t0; EDispatcher; EDispatcher; ETicker;
   EInfo [VString "b"] t0] ++ repeat EDispatcher 13.

Definition s_size : State := final (run (boot l0) trace_size).

(** A message of severity ERROR with no operands. *)
Definition m_e : logMessage := mkMsg "ERROR" t0 [].

(** The state between two messages: the dispatcher waits on an empty,
    open channel and the buffer mutexes are free. *)
Definition idle (s : State) : Prop :=
  dispatcher s = DRecv /\ logChannel (lg s) = [] /\
  (forall K, mu (lg s) K = None) /\ chanClosed (lg s) = false.

(* ------------------------------------------------------------------ *)
(** ** Text: digits and time stamps *)

Section Digits.

Local Open Scope string_scope.
Local Open Scope Z_scope.

Lemma isDigit_digit d : 0 <= d < 10 -> isDigit (digit d) = true.
Proof.
  intro H.
  assert (E : d = 0 \/ d = 1 \/ d = 2 \/ d = 3 \/ d = 4 \/ d = 5 \/
              d = 6 \/ d = 7 \/ d = 8 \/ d = 9) by lia.
  repeat (destruct E as [E | E]; [subst d; reflexivity |]).
  subst d; reflexivity.
Qed.

Lemma isDigit_mod u : isDigit (digit (u mod 10)) = true.
Proof. apply isDigit_digit, Z.mod_pos_bound; lia. Qed.

Lemma slength_app (a b : string) :
  String.length (a ++ b) = (String.length a + String.length b)%nat.
Proof. induction a; simpl; congruence. Qed.

Lemma allb_app p (a b : string) : allb p (a ++ b) = allb p a && allb p b.
Proof. induction a; simpl; [reflexivity | rewrite IHa, andb_assoc; reflexivity]. Qed.

Lemma countBytes_app p (a b : string) :
  countBytes p (a ++ b) = (countBytes p a + countBytes p b)%nat.
Proof. induction a; simpl; [reflexivity | rewrite IHa; lia]. Qed.

Lemma lines_app (a b : string) : lines (a ++ b) = (lines a + lines b)%nat.
Proof. apply countBytes_app. Qed.

Lemma fixed_length k : forall u acc,
  String.length (fixed k u acc) = (k + String.length acc)%nat.
Proof.
  induction k; intros; simpl; [reflexivity |].
  rewrite IHk; simpl; lia.
Qed.

Lemma fixed_digits k : forall u acc,
  allb isDigit acc = true -> allb isDigit (fixed k u acc) = true.
Proof.
  induction k; intros u acc H; cbn [fixed]; [exact H |].
  apply IHk; cbn [allb]; rewrite isDigit_mod; exact H.
Qed.

Lemma utoa_fuel_digits f : forall u acc,
  allb isDigit acc = true -> allb isDigit (utoa_fuel f u acc) = true.
Proof.
  induction f; intros u acc H; cbn [utoa_fuel]; [exact H |].
  destruct (u <? 10).
  - cbn [allb]; rewrite isDigit_mod; exact H.
  - apply IHf; cbn [allb]; rewrite isDigit_mod; exact H.
Qed.

Lemma isDigit_not_LF c : isDigit c = true -> isLF c = false.
Proof.
  unfold isDigit, isLF; intro H.
  apply andb_true_iff in H; destruct H as [H _].
  apply Nat.leb_le in H; apply Nat.eqb_neq; lia.
Qed.

Lemma digits_no_LF s : allb isDigit s = true -> lines s = O.
Proof.
  induction s; simpl; intro H; [reflexivity |].
  apply andb_true_iff in H; destruct H as [H1 H2].
  unfold lines in *; simpl.
  rewrite (isDigit_not_LF _ H1), (IHs H2); reflexivity.
Qed.

Lemma appendInt_no_LF x w : lines (appendInt x w) = O.
Proof.
  unfold appendInt; rewrite lines_app.
  assert (lines (if x <? 0 then "-" else "") = O) as -> by (destruct (x <? 0); reflexivity).
  destruct (Z.abs x <? 10 ^ Z.of_nat w); apply digits_no_LF.
  - apply fixed_digits; reflexivity.
  - apply utoa_fuel_digits; reflexivity.
Qed.

Lemma appendInt_fixed x (w : nat) :
  0 <= x < 10 ^ Z.of_nat w -> appendInt x w = fixed w x "".
Proof.
  intros [H0 H1]; unfold appendInt.
  assert ((x <? 0) = false) as -> by (apply Z.ltb_ge; lia).
  rewrite Z.abs_eq by lia.
  assert ((x <? 10 ^ Z.of_nat w) = true) as -> by (apply Z.ltb_lt; lia).
  reflexivity.
Qed.

Lemma fixed_is_digits k u : digits k (fixed k u "").
Proof.
  split; [rewrite fixed_length; simpl; lia | apply fixed_digits; reflexivity].
Qed.

Lemma fraction_fixed ns :
  substring 0 3 (fixed 9 ns "") = fixed 3 (ns / 1000000) "".
Proof.
  cbn [fixed].
  replace (ns / 10 / 10 / 10 / 10 / 10 / 10) with (ns / 1000000)
    by (repeat rewrite Z.div_div by lia; reflexivity).
  reflexivity.
Qed.

(** The layout ["2006-01-02 15:04:05.000"] on a valid time. *)
Lemma Format_valid t :
  validTime t ->
  Format t =
    fixed 4 (year t) "" ++ "-" ++ fixed 2 (month t) "" ++ "-" ++
    fixed 2 (day t) "" ++ " " ++ fixed 2 (hour t) "" ++ ":" ++
    fixed 2 (minute t) "" ++ ":" ++ fixed 2 (second t) "" ++ "." ++
    fixed 3 (nanosecond t / 1000000) "".
Proof.
  intros (Hy & Hmo & Hd & Hh & Hmi & Hs & Hn); unfold Format.
  rewrite (appendInt_fixed (year t) 4) by (simpl; lia).
  rewrite (appendInt_fixed (month t) 2) by (simpl; lia).
  rewrite (appendInt_fixed (day t) 2) by (simpl; lia).
  rewrite (appendInt_fixed (hour t) 2) by (simpl; lia).
  rewrite (appendInt_fixed (minute t) 2) by (simpl; lia).
  rewrite (appendInt_fixed (second t) 2) by (simpl; lia).
  rewrite (appendInt_fixed (nanosecond t) 9) by (simpl; lia).
  rewrite fraction_fixed; reflexivity.
Qed.

Lemma Format_stamp t : validTime t -> stamp (Format t).
Proof.
  intro H; rewrite (Format_valid t H).
  do 7 eexists; split; [reflexivity |].
  repeat split; try apply fixed_is_digits.
Qed.

Lemma Format_no_LF t : lines (Format t) = O.
Proof.
  unfold Format; repeat rewrite lines_app; repeat rewrite appendInt_no_LF.
  simpl.
  remember (appendInt (nanosecond t) 9) as s.
  assert (H : lines s = O) by (subst; apply appendInt_no_LF).
  clear Heqs.
  assert (G : forall n s, lines s = O -> lines (substring 0 n s) = O).
  { clear; induction n; intros [|c s] H; simpl; try reflexivity.
    unfold lines in *; simpl in *.
    destruct (isLF c); [discriminate |]; simpl; apply IHn; exact H. }
  apply G; exact H.
Qed.

End Digits.

(* ------------------------------------------------------------------ *)
(** ** Text: [strings.TrimSpace] *)

Section Trim.

Local Open Scope string_scope.

Lemma app_empty_r (s : string) : s ++ "" = s.
Proof. induction s; simpl; congruence. Qed.

Lemma app_assoc_s (a b c : string) : (a ++ b) ++ c = a ++ (b ++ c).
Proof. induction a; simpl; congruence. Qed.

Lemma srev_app (a b : string) : srev (a ++ b) = srev b ++ srev a.
Proof.
  induction a; simpl.
  - rewrite app_empty_r; reflexivity.
  - rewrite IHa, app_assoc_s; reflexivity.
Qed.

Lemma srev_involutive (s : string) : srev (srev s) = s.
Proof.
  induction s; simpl; [reflexivity |].
  rewrite srev_app, IHs; reflexivity.
Qed.

(** Induction on strings by length, for the look-ahead of [dropSpace]. *)
Lemma string_length_ind (P : string -> Prop) :
  (forall s, (forall r, (String.length r < String.length s)%nat -> P r) -> P s) ->
  forall s, P s.
Proof.
  intros H s.
  assert (G : forall n r, (String.length r < n)%nat -> P r).
  { induction n; intros r Hr; [lia |].
    apply H; intros r' Hr'; apply IHn; lia. }
  apply (G (S (String.length s))); lia.
Qed.

Lemma dropSpace_eq fwd s :
  dropSpace fwd s =
  match s with
  | EmptyString => s
  | String a r =>
      if asciiSpace a then dropSpace fwd r
      else
        match r with
        | EmptyString => s
        | String b r2 =>
            if (if fwd then space2 a b else space2 b a) then dropSpace fwd r2
            else
              match r2 with
              | EmptyString => s
              | String c r3 =>
                  if (if fwd then space3 a b c else space3 c b a)
                  then dropSpace fwd r3
                  else s
              end
        end
  end.
Proof. destruct s; reflexivity. Qed.

(** One unfolding of [dropSpace], split into its branches. *)
Ltac dropSpace_cases :=
  rewrite dropSpace_eq;
  repeat match goal with
         | |- context [match ?x with _ => _ end] => destruct x eqn:?
         end.

Lemma dropSpace_suffix fwd s : exists p, s = p ++ dropSpace fwd s.
Proof.
  induction s as [s IH] using string_length_ind.
  assert (K : forall r q, (String.length r < String.length s)%nat ->
                          s = q ++ r -> exists p, s = p ++ dropSpace fwd r).
  { intros r q Hr ->; destruct (IH r Hr) as [p Hp].
    exists (q ++ p); rewrite app_assoc_s, <- Hp; reflexivity. }
  clear IH; dropSpace_cases; try (exists ""; reflexivity).
  all: match goal with
       | |- exists p, String ?a (String ?b (String ?c ?r)) = p ++ dropSpace _ ?r =>
           apply (K r (String a (String b (String c ""))))
       | |- exists p, String ?a (String ?b ?r) = p ++ dropSpace _ ?r =>
           apply (K r (String a (String b "")))
       | |- exists p, String ?a ?r = p ++ dropSpace _ ?r =>
           apply (K r (String a ""))
       end; [simpl; lia | reflexivity].
Qed.

Lemma dropSpace_first fwd s c :
  firstByte (dropSpace fwd s) = Some c -> asciiSpace c = false.
Proof.
  induction s as [s IH] using string_length_ind.
  dropSpace_cases; try (apply IH; simpl; lia);
    simpl; intro E; try discriminate; injection E as <-; assumption.
Qed.

Lemma TrimSpace_trimmed s : trimmed (TrimSpace s).
Proof.
  unfold trimmed, TrimSpace, lastByte; split; intros c H.
  - destruct (dropSpace_suffix false (srev (dropSpace true s))) as [p Hp].
    apply (f_equal srev) in Hp.
    rewrite srev_involutive, srev_app in Hp.
    destruct (srev (dropSpace false (srev (dropSpace true s)))) as [|x r];
      [discriminate |].
    simpl in H; injection H as ->.
    apply (dropSpace_first true s); rewrite Hp; reflexivity.
  - rewrite srev_involutive in H.
    exact (dropSpace_first false _ c H).
Qed.

End Trim.

(* ------------------------------------------------------------------ *)
(** ** Construction *)

(** C10, as the code has it: a size [<= 0] never yields a logger, and
    yields the error return when the directory is accessible; an
    inaccessible directory ends the process in [log.Fatalf] whatever the
    size; an accessible directory with a positive size yields the logger
    and no error. *)
Theorem NewLogger_outcomes (mkdirOk : bool) (logDir logPrefix : string)
    (size interval : Z) (min : string) :
  let r := NewLogger mkdirOk logDir logPrefix size interval min in
  (size <= 0 -> forall l, r <> Created l) /\
  (mkdirOk = true -> size <= 0 -> exists err, r = Failed err) /\
  (mkdirOk = false -> r = Fatal) /\
  (mkdirOk = true -> 0 < size -> r = Created (fresh size interval min)).
Proof.
  unfold NewLogger; cbv zeta.
  destruct mkdirOk; cbn [negb];
    destruct (Z.leb_spec size 0); repeat split; intros;
    try discriminate; try lia; try congruence; eauto.
Qed.

Lemma NewLogger_outcomes_witness :
  (exists err, NewLogger true "logs" "app" 0 1000 "INFO" = Failed err) /\
  NewLogger false "logs" "app" 8 1000 "INFO" = Fatal /\
  NewLogger true "logs" "app" 8 1000 "INFO" = Created (fresh 8 1000 "INFO").
Proof.
  destruct (NewLogger_outcomes true "logs" "app" 0 1000 "INFO") as (_ & A & _).
  destruct (NewLogger_outcomes false "logs" "app" 8 1000 "INFO") as (_ & _ & B & _).
  destruct (NewLogger_outcomes true "logs" "app" 8 1000 "INFO") as (_ & _ & _ & C).
  split; [apply A; [reflexivity | lia] |].
  split; [apply B; reflexivity | apply C; [reflexivity | lia]].
Defined.

(** C10 as stated fails: with size [0] and an inaccessible directory the
    call does not return an error, it ends the process. *)
Lemma NewLogger_size_zero_fatal :
  0 <= 0 /\
  ~ (forall mkdirOk logDir logPrefix size interval min,
       size <= 0 ->
       exists err,
         NewLogger mkdirOk logDir logPrefix size interval min = Failed err).
Proof.
  split; [lia |].
  intro H; destruct (H false "logs" "app" 0 1000 "INFO" ltac:(lia)) as [err E].
  discriminate E.
Qed.

(* ------------------------------------------------------------------ *)
(** ** The logging calls *)

Lemma emit_open l L v now :
  chanClosed l = false -> produced l L v now (emit l L v now).
Proof.
  intro H; unfold emit, trySend; rewrite H.
  destruct (List.length (logChannel l) <? chanCap)%nat.
  - left; eexists; repeat split; reflexivity.
  - right; eexists; split; [reflexivity |].
    split; [| reflexivity].
    unfold write, directLine; cbn; unfold upd.
    destruct L; reflexivity.
Qed.


Lemma emit_closed l L v now : chanClosed l = true -> emit l L v now = Panic.
Proof. intro H; unfold emit, trySend; rewrite H; reflexivity. Qed.

(** C3: [Debug] does something only at level DEBUG, [Info] only at INFO
    or DEBUG, and below those levels the call leaves the logger as it
    was; [Error] never skips, whatever the level, and on an open channel
    every admitted call produces output. *)
Theorem level_gating (l : Logger) (v : list value) (now : Time) :
  (log_level l <> "DEBUG"%string ->
     Debug l v now = Skipped /\ after l (Debug l v now) = Some l) /\
  (log_level l <> "INFO"%string -> log_level l <> "DEBUG"%string ->
     Info l v now = Skipped /\ after l (Info l v now) = Some l) /\
  (Debug l v now <> Skipped -> log_level l = "DEBUG"%string) /\
  (Info l v now <> Skipped ->
     log_level l = "INFO"%string \/ log_level l = "DEBUG"%string) /\
  Error l v now <> Skipped /\
  (forall min, Error (set_log_level l min) v now <> Skipped) /\
  (chanClosed l = false ->
     produced l ERROR v now (Error l v now) /\
     (log_level l = "DEBUG"%string ->
        produced l DEBUG v now (Debug l v now) /\
        produced l INFO v now (Info l v now)) /\
     (log_level l = "INFO"%string -> produced l INFO v now (Info l v now))).
Proof.
  assert (NS : forall l' L, emit l' L v now <> Skipped).
  { intros l' L; unfold emit; destruct (trySend l' _); discriminate. }
  unfold Debug, Info, Error.
  destruct (String.eqb_spec (log_level l) "DEBUG") as [D | D];
    destruct (String.eqb_spec (log_level l) "INFO") as [I | I];
    cbn [orb]; repeat split; intros; try congruence; auto;
    try (apply emit_open; assumption); try apply NS.
Qed.

Lemma level_gating_witness :
  Debug lInfo [VString "a"] t0 = Skipped /\
  Info lError [VString "a"] t0 = Skipped /\
  produced lError ERROR [VString "a"] t0 (Error lError [VString "a"] t0) /\
  produced lInfo INFO [VString "a"] t0 (Info lInfo [VString "a"] t0).
Proof.
  destruct (level_gating lInfo [VString "a"] t0) as (A & _ & _ & _ & _ & _ & B).
  destruct (level_gating lError [VString "a"] t0) as (_ & C & _ & _ & _ & _ & D).
  split; [apply A; discriminate |].
  split; [apply C; discriminate |].
  split; [apply D; reflexivity | apply B; reflexivity].
Defined.



(* ------------------------------------------------------------------ *)
(** ** The flushed line *)

Lemma prefix_no_LF L : lines (prefix L) = O.
Proof. destruct L; reflexivity. Qed.

Lemma render_eq L m :
  render L m =
    (prefix L ++ Format (timestamp m) ++ " " ++ payload m ++ LF)%string.
Proof.
  unfold render, Println, Sprintln, payload; cbn [String.concat].
  repeat rewrite app_assoc_s; reflexivity.
Qed.

Lemma render_lines L m : lines (render L m) = S (lines (payload m)).
Proof.
  rewrite render_eq; repeat rewrite lines_app.
  rewrite prefix_no_LF, Format_no_LF.
  change (lines " ") with O; change (lines LF) with 1%nat; lia.
Qed.

(** C9, as the code has it: the write step of a flush appends to the
    sink one chunk per message, made of the prefix of that logger
    (["INFO: "], ["DEBUG: "] or ["ERROR: "]), the time stamp of the
    message in the shape [YYYY-MM-DD HH:MM:SS.mmm], a space, the
    space-joined operands with leading and trailing white space removed,
    and a line end; the chunk is one line more than the line ends left
    inside the payload; the time stamp is the [now] of the logging
    call. *)
Theorem flushed_line_format (t : tid) (L : lvl) (m : logMessage)
    (tmp : list logMessage) (s : State) :
  validTime (timestamp m) ->
  (exists s',
     flushBuffer t L (FWrite (m :: tmp)) s = Some (Some (FWrite tmp), s') /\
     sink (lg s') L = sink (lg s) L ++ [render L m]) /\
  render L m =
    (prefix L ++ Format (timestamp m) ++ " " ++ payload m ++ LF)%string /\
  stamp (Format (timestamp m)) /\
  trimmed (payload m) /\
  lines (render L m) = S (lines (payload m)) /\
  (forall l v now l',
     emit l L v now = Queued l' ->
     exists m', logChannel l' = logChannel l ++ [m'] /\
                timestamp m' = now /\ msg m' = v /\ level m' = name L).
Proof.
  intro V; repeat split.
  - eexists; split; [reflexivity |].
    cbn; unfold upd; destruct L; reflexivity.
  - apply render_eq.
  - apply Format_stamp; exact V.
  - apply TrimSpace_trimmed.
  - apply TrimSpace_trimmed.
  - apply render_lines.
  - intros l v now l' E; unfold emit, trySend in E.
    destruct (chanClosed l); [discriminate |].
    destruct (List.length (logChannel l) <? chanCap)%nat; [| discriminate].
    injection E as <-; eexists; repeat split; reflexivity.
Qed.

Lemma flushed_line_format_witness :
  render INFO (mkMsg "INFO" t0 [VString "a"; VInt 3]) =
    ("INFO: 2024-01-02 03:04:05.006 a 3" ++ LF)%string /\
  lines (render INFO (mkMsg "INFO" t0 [VString "a"; VInt 3])) = 1%nat.
Proof.
  assert (V : validTime (timestamp (mkMsg "INFO" t0 [VString "a"; VInt 3])))
    by (unfold validTime; simpl; lia).
  destruct (flushed_line_format TDispatcher INFO _ [] (boot l0) V)
    as (_ & A & _ & _ & B & _).
  split; [rewrite A; reflexivity | rewrite B; reflexivity].
Defined.

(** C9 as stated fails: the flushed line starts with the prefix of its
    logger, not with the time stamp; white space in front of the payload
    is removed too; and a line end inside the payload makes the chunk
    two lines. *)
Lemma flushed_line_is_not_spec_line :
  render INFO (mkMsg "INFO" t0 [VString "a"]) <>
    spec_line (mkMsg "INFO" t0 [VString "a"]) /\
  spec_line (mkMsg "INFO" t0 [VString "a"]) =
    ("2024-01-02 03:04:05.006 a" ++ LF)%string /\
  render INFO (mkMsg "INFO" t0 [VString "a"]) =
    ("INFO: 2024-01-02 03:04:05.006 a" ++ LF)%string /\
  render INFO (mkMsg "INFO" t0 [VString "  a"]) =
    ("INFO: 2024-01-02 03:04:05.006 a" ++ LF)%string /\
  lines (render INFO (mkMsg "INFO" t0 [VString ("a" ++ LF ++ "b")])) = 2%nat.
Proof.
  repeat split; try reflexivity.
  vm_compute; discriminate.
Qed.

(* ------------------------------------------------------------------ *)
(** ** Case analysis on a step *)

Lemma lvl_eqb_spec a b : reflect (a = b) (lvl_eqb a b).
Proof. destruct a, b; constructor; congruence. Qed.

Lemma called_cases s L v now s' :
  called s L v now (emit (lg s) L v now) = Some s' ->
  chanClosed (lg s) = false /\ (s' = enqueue s L v now \/ s' = bypass s L v).
Proof.
  unfold emit, trySend.
  destruct (chanClosed (lg s)); [discriminate |].
  destruct (_ <? _)%nat; cbn; intro E; injection E as <-; auto.
Qed.

Lemma step_logging s e s' :
  step s e = Some s' ->
  match e with
  | EInfo _ _ | EDebug _ _ | EError _ _ => logging_call s s'
  | _ => True
  end.
Proof.
  destruct e; cbn [step]; auto; unfold Info, Debug, Error;
    repeat match goal with
           | |- context [if ?b then _ else _] => destruct b
           end;
    intro H;
    try (apply called_cases in H; destruct H as [H0 [H | H]];
         [eapply call_queued | eapply call_direct]; eassumption);
    injection H as <-; apply call_skipped; reflexivity.
Qed.

(** Splits [H : step s e = Some s'] into the program points of the
    goroutine that moves. *)
Ltac step_cases H :=
  unfold step, processLogMessages, flushBufferPeriodically, Close,
    flushBuffer in H;
  repeat match type of H with
         | context [match ?x with _ => _ end] =>
             lazymatch x with
             | context [match _ with _ => _ end] => fail
             | _ => first [is_var x; destruct x | destruct x eqn:?]
             end
         end;
  try discriminate H; injection H as <-.

Ltac by_event e H :=
  destruct e;
  [ apply step_logging in H; destruct H as [-> | ? ? ? ? -> | ? ? ? -> ] ..
  | step_cases H | step_cases H | step_cases H ].

(** Projections of an updated state, back to the state before. *)
Ltac simp_state :=
  cbn [lg dispatcher ticker closer queued direct flushes runs
       set_lg set_dispatcher set_ticker set_closer
       add_queued add_direct add_flush add_run enqueue bypass write
       sink logChannel chanClosed buffer bufferSize flushInterval mu
       once_done once_m wg closed log_level
       set_sink set_logChannel set_chanClosed set_buffer set_mu
       set_once_done set_once_m set_wg set_log_level] in *.

Ltac simp_pcs :=
  cbn [holds flushing d_holds f_holds d_flushing t_flushing c_flushing
       critical in_slow running andb orb] in *.

Ltac split_vars :=
  repeat match goal with
         | |- context [match ?x with _ => _ end] => is_var x; destruct x
         | H : context [match ?x with _ => _ end] |- _ => is_var x; destruct x
         end.

Ltac split_eqb :=
  repeat match goal with
         | |- context [lvl_eqb ?a ?b] => destruct (lvl_eqb_spec a b); subst
         | H : context [lvl_eqb ?a ?b] |- _ => destruct (lvl_eqb_spec a b); subst
         | |- context [Nat.eqb ?a ?b] => destruct (Nat.eqb_spec a b); subst
         | H : context [Nat.eqb ?a ?b] |- _ => destruct (Nat.eqb_spec a b); subst
         end.

(** The program-point equations left by [step_cases], used as rewrites. *)
Ltac use_pcs :=
  repeat match goal with
         | E : dispatcher ?s = _ |- _ => rewrite E in *; clear E
         | E : ticker ?s = _ |- _ => rewrite E in *; clear E
         | E : closer ?s ?i = _ |- _ => rewrite E in *; clear E
         end.

Lemma d_holds_flushing d L L' f :
  d_flushing d = Some (L', f) -> d_holds d L = lvl_eqb L L' && critical f.
Proof. destruct d; simpl; intro E; try discriminate; injection E as -> ->; reflexivity. Qed.

Ltac use_flushing :=
  repeat match goal with
         | F : ?x = Some _, H : context [f_holds ?x _] |- _ => rewrite F in H
         | F : d_flushing ?d = Some _, H : context [d_holds ?d _] |- _ =>
             rewrite (d_holds_flushing d _ _ _ F) in H
         end.

Ltac crunch :=
  simp_pcs; simp_state; simp_pcs; unfold upd in *; split_eqb;
  use_pcs; simp_pcs; use_flushing; simp_pcs;
  split_vars; split_eqb; simp_pcs;
  try tauto; try congruence; try solve [intuition congruence].

(** Instances of the mutual-exclusion facts at one level, for the two
    fixed goroutines and for every invocation of [Close] in sight. *)
Ltac pose_new p :=
  let T := type of p in
  lazymatch goal with
  | _ : T |- _ => fail
  | _ => pose proof p
  end.

Ltac pose_locks A K :=
  pose proof (A TDispatcher K); pose proof (A TTicker K);
  repeat match goal with i : nat |- _ => pose_new (A (TCloser i) K) end.

Ltac pose_once C :=
  repeat match goal with i : nat |- _ => pose_new (C i) end.

Lemma mutex_inv_step s e s' :
  mutex_inv s -> step s e = Some s' -> mutex_inv s'.
Proof.
  intros I H.
  by_event e H; destruct I as (A & B & C); (split; [| split]).
  all: simp_state; try assumption.
  all: try (intros t' K'; destruct t'; pose_locks A K'; crunch; fail).
  all: try (intros j'; pose_once C; crunch; fail).
  all: intros t' K' tmp' F'; pose proof (B t' K' tmp'); destruct t';
       pose_locks A K'; crunch.
Qed.
Ltac simp_life :=
  cbn [d_done past_close past_wait emptied after_once lvl_ltb swapped
       running in_slow andb orb negb] in *.

Lemma emptied_past_wait c L : emptied c L = true -> past_wait c = true.
Proof. destruct c; simpl; congruence. Qed.

Lemma past_wait_close c : past_wait c = true -> past_close c = true.
Proof. destruct c; simpl; congruence. Qed.

Lemma past_close_running c : past_close c = true -> running c = true.
Proof. destruct c; simpl; congruence. Qed.

Lemma running_in_slow c : running c = true -> in_slow c = true.
Proof. destruct c; simpl; congruence. Qed.

Lemma flushing_past_wait c x : c_flushing c = Some x -> past_wait c = true.
Proof. destruct c; simpl; congruence. Qed.

Ltac pose_closers P :=
  repeat match goal with i : nat |- _ => pose_new (P i) end.

Ltac pose_levels P :=
  repeat match goal with K : lvl |- _ => pose_new (P K) end.

Ltac pose_closers_levels P :=
  repeat match goal with i : nat, K : lvl |- _ => pose_new (P i K) end.

Ltac pose_pc_facts s :=
  repeat match goal with
         | i : nat, K : lvl |- _ => pose_new (emptied_past_wait (closer s i) K)
         end;
  repeat match goal with
         | i : nat |- _ => pose_new (past_wait_close (closer s i))
         end;
  repeat match goal with
         | i : nat |- _ => pose_new (past_close_running (closer s i))
         end;
  repeat match goal with
         | i : nat |- _ => pose_new (running_in_slow (closer s i))
         end.

Ltac use_wg :=
  repeat match goal with
         | H : (_ =? _) = true |- _ => apply Z.eqb_eq in H
         | H : context [if d_done ?d then _ else _] |- _ =>
             destruct (d_done d) eqn:?
         | |- context [if d_done ?d then _ else _] => destruct (d_done d) eqn:?
         end.

Ltac life_crunch :=
  simp_pcs; simp_state; simp_pcs; simp_life; unfold upd in *; split_eqb;
  use_pcs; simp_pcs; simp_life; unfold lvl_ltb in *; split_vars; split_eqb;
  simp_pcs; simp_life; use_wg;
  try congruence; try lia; try tauto;
  try solve [intuition (congruence || lia)].

Lemma life_inv_step s e s' :
  mutex_inv s -> life_inv s -> step s e = Some s' -> life_inv s'.
Proof.
  intros M I H.
  by_event e H; destruct M as (A & B & C);
    destruct I as (W & D1 & D2 & PC & PW & E & O1 & O2 & O3 & R & AO & N);
    repeat apply conj.
  all: simp_state; try assumption.
  all: try (intros; pose_closers PC; pose_closers PW; pose_closers R;
            pose_closers AO; pose_once C; pose_closers_levels E;
            pose_levels O3; pose_pc_facts s; life_crunch; fail).
  all: try (rewrite N; unfold entered; simp_state;
            destruct (once_done (lg s)) eqn:?;
            destruct (once_m (lg s)) as [k|] eqn:?;
            pose_closers PC; pose_closers PW; pose_closers R; pose_closers AO;
            pose_once C; pose_pc_facts s; life_crunch; fail).
  rewrite N; unfold entered; simp_state.
  assert (once_m (lg s) = Some i) as ->
    by (apply C; rewrite Heqc; reflexivity).
  rewrite (R i) by (rewrite Heqc; reflexivity).
  rewrite Heqc; reflexivity.
Qed.
Ltac simp_held :=
  cbn [d_held f_carried carried d_flushing t_flushing c_flushing
       filter map count_occ app] in *.

Ltac use_reset B :=
  repeat match goal with
         | E : dispatcher ?s = DFlush ?L (FReset ?tmp) |- _ =>
             pose_new (B TDispatcher L tmp)
         | E : ticker ?s = TFlush ?L (FReset ?tmp) |- _ =>
             pose_new (B TTicker L tmp)
         | E : closer ?s ?i = CFlush ?L (FReset ?tmp) |- _ =>
             pose_new (B (TCloser i) L tmp)
         end.

Ltac split_dec :=
  repeat match goal with
         | |- context [string_dec ?a ?b] => destruct (string_dec a b)
         | |- context [at_level ?a ?b] => destruct (at_level a b) eqn:?
         end.

Lemma at_level_some m l K :
  levelOf (level m) = Some l -> at_level K m = lvl_eqb K l.
Proof. unfold at_level; intros ->; reflexivity. Qed.

Lemma at_level_none m K : levelOf (level m) = None -> at_level K m = false.
Proof. unfold at_level; intros ->; reflexivity. Qed.

Ltac use_level I :=
  try match goal with
      | E : levelOf (level ?m) = Some ?l |- _ =>
          rewrite ?(at_level_some m l _ E) in I;
          rewrite ?(at_level_some m l _ E)
      | E : levelOf (level ?m) = None |- _ =>
          rewrite ?(at_level_none m _ E) in I;
          rewrite ?(at_level_none m _ E)
      end.

Ltac use_pcs_keep :=
  repeat match goal with
         | E : dispatcher ?s = _ |- _ => progress rewrite E in *
         | E : ticker ?s = _ |- _ => progress rewrite E in *
         | E : closer ?s ?i = _ |- _ => progress rewrite E in *
         end.

(** Who holds the mutex of [once], from the instances of the invariant. *)
Ltac use_holder :=
  repeat match goal with
         | H : ?a = ?a <-> false = true |- _ =>
             destruct H as [H _]; discriminate (H eq_refl)
         | H : Some ?k = Some ?i <-> true = true |- _ =>
             destruct H as [_ H]; specialize (H eq_refl);
             injection H as H; subst
         | H : None = Some _ <-> true = true |- _ =>
             destruct H as [_ H]; discriminate (H eq_refl)
         end.

(** [I] is the conservation equation of the state before the step. *)
Ltac cons_crunch I :=
  simp_pcs; simp_state; simp_pcs; unfold upd in *;
  use_pcs_keep; simp_pcs; use_holder; use_pcs_keep; simp_pcs;
  cbn [d_held f_carried carried] in *; use_level I;
  split_eqb; use_holder; use_pcs_keep;
  try match goal with
      | E : logChannel _ = _ |- _ => try rewrite E in I; try rewrite E
      end;
  simp_held; split_vars; split_eqb; simp_held;
  repeat match goal with
         | H : ?a = ?a -> buffer _ _ = _ |- _ =>
             specialize (H eq_refl); rewrite H in I
         end;
  revert I;
  repeat (progress (cbn [filter map count_occ app];
                    rewrite ?filter_app, ?map_app, ?count_occ_app;
                    split_dec));
  intro I; try congruence; try lia.

Lemma cons_inv_step s e s' :
  mutex_inv s -> cons_inv s -> step s e = Some s' -> cons_inv s'.
Proof.
  intros M I H.
  by_event e H; destruct M as (A & B & C); try assumption.
  all: intros K' x'; specialize (I K' x');
       unfold pending, owed, closer_held, occ in *.
  all: use_reset B.
  all: simp_state.
  all: destruct (once_m (lg s)) as [k|] eqn:?; pose_once C; cons_crunch I.
Qed.

(* ------------------------------------------------------------------ *)
(** ** Every reachable state satisfies the invariants *)

Lemma inv_boot size interval min : inv (boot (fresh size interval min)).
Proof.
  split; [| split].
  - split; [| split].
    + intros t L; destruct t; simpl; split; discriminate.
    + intros t L tmp; destruct t; simpl; discriminate.
    + intros i; simpl; split; discriminate.
  - repeat split; simpl; intros; try discriminate; reflexivity.
  - intros L x; reflexivity.
Qed.

Lemma inv_step s e s' : inv s -> step s e = Some s' -> inv s'.
Proof.
  intros (M & F & K) H; split; [| split].
  - exact (mutex_inv_step s e s' M H).
  - exact (life_inv_step s e s' M F H).
  - exact (cons_inv_step s e s' M K H).
Qed.

Lemma inv_run es : forall s s', inv s -> run s es = Some s' -> inv s'.
Proof.
  induction es as [| e es IH]; intros s s' I H; simpl in H.
  - injection H as <-; exact I.
  - destruct (step s e) as [s1 |] eqn:E; [| discriminate].
    exact (IH s1 s' (inv_step s e s1 I E) H).
Qed.

Lemma NewLogger_created mkdirOk logDir logPrefix size interval min l :
  NewLogger mkdirOk logDir logPrefix size interval min = Created l ->
  l = fresh size interval min /\ 0 < size.
Proof.
  unfold NewLogger; destruct mkdirOk; cbn [negb]; [| discriminate].
  destruct (Z.leb_spec size 0); [discriminate |].
  intro E; injection E as <-; split; [reflexivity | assumption].
Qed.

Lemma reachable_inv s : reachable s -> inv s.
Proof.
  intros (mkdirOk & logDir & logPrefix & size & interval & min & l & es & N & R).
  apply NewLogger_created in N; destruct N as [-> _].
  exact (inv_run es _ s (inv_boot size interval min) R).
Qed.

(* ------------------------------------------------------------------ *)
(** ** Shutdown *)

Lemma reachable_run s es s' : reachable s -> run s es = Some s' -> reachable s'.
Proof.
  intros (mkdirOk & logDir & logPrefix & size & interval & min & l & es0 & N & R) H.
  exists mkdirOk, logDir, logPrefix, size, interval, min, l, (es0 ++ es).
  split; [exact N |].
  revert R; generalize (boot l); induction es0 as [| e es0 IH]; intros b R;
    simpl in *.
  - injection R as ->; exact H.
  - destruct (step b e); [apply IH; exact R | discriminate].
Qed.

Lemma reachable_sample es :
  run (boot l0) es <> None -> reachable (final (run (boot l0) es)).
Proof.
  intro H.
  exists true, "logs"%string, "app"%string, 2, 10000000000, "DEBUG"%string, l0, es.
  split; [reflexivity |].
  destruct (run (boot l0) es); [reflexivity | congruence].
Qed.

Lemma entered_le_1 s : (entered s <= 1)%nat.
Proof.
  unfold entered; destruct (once_done (lg s)); [lia |].
  destruct (once_m (lg s)); [| lia].
  destruct (running _); lia.
Qed.

(** What holds once some invocation of [Close] has returned. *)
Lemma closed_facts s i :
  inv s -> closer s i = CReturned ->
  once_done (lg s) = true /\ chanClosed (lg s) = true /\
  dispatcher s = DDone /\ logChannel (lg s) = [] /\
  (forall L, buffer (lg s) L = []) /\
  (forall j, running (closer s j) = false) /\
  once_done (lg s) = true /\ runs s = 1%nat.
Proof.
  intros (M & (W & D1 & D2 & PC & PW & E & O1 & O2 & O3 & R & AO & N) & K) H.
  assert (Dn : once_done (lg s) = true) by (apply (AO i); rewrite H; reflexivity).
  assert (DD : d_done (dispatcher s) = true) by auto.
  repeat split; auto.
  - destruct (dispatcher s); try discriminate; reflexivity.
  - intro j; destruct (running (closer s j)) eqn:Rj; [| reflexivity].
    rewrite (R j Rj) in Dn; discriminate.
  - rewrite N; unfold entered; rewrite Dn; reflexivity.
Qed.

(** C2: in every reachable state the function given to [once.Do] (close
    the channel, wait for the dispatcher, flush the three buffers) has
    been entered at most once, whatever the number of invocations of
    [Close] and their interleaving; and when an invocation has returned,
    that one execution is over: it was entered exactly once, no
    invocation is inside it any more, [done] is set, the channel is
    closed and drained, the dispatcher has ended and the three buffers
    are empty. *)
Theorem Close_exactly_once (s : State) :
  reachable s ->
  (runs s <= 1)%nat /\
  forall i, closer s i = CReturned ->
    runs s = 1%nat /\
    (forall j, running (closer s j) = false) /\
    once_done (lg s) = true /\
    chanClosed (lg s) = true /\ logChannel (lg s) = [] /\
    dispatcher s = DDone /\
    forall L, buffer (lg s) L = [].
Proof.
  intro R; pose proof (reachable_inv s R) as I; split.
  - destruct I as (_ & F & _).
    destruct F as (_ & _ & _ & _ & _ & _ & _ & _ & _ & _ & _ & N).
    rewrite N; apply entered_le_1.
  - intros i H.
    destruct (closed_facts s i I H) as (A & B & C & D & E & F & _ & G).
    repeat split; auto.
Qed.

Lemma Close_exactly_once_witness :
  closer s_twice 0 = CReturned /\ closer s_twice 1 = CReturned /\
  runs s_twice = 1%nat /\ once_done (lg s_twice) = true /\
  dispatcher s_twice = DDone.
Proof.
  assert (R : reachable s_twice)
    by (apply reachable_sample; vm_compute; discriminate).
  destruct (Close_exactly_once s_twice R) as [_ H].
  destruct (H 1%nat eq_refl) as (A & _ & B & _ & _ & C & _).
  repeat split; assumption.
Defined.

(** C7: once an invocation of [Close] has returned, the channel is
    closed, and every logging call that is not skipped by its level
    panics on the send: [Error] always, [Info] and [Debug] when the level
    admits them.  No such call takes the direct write: a send on a closed
    channel panics whether the channel is full or not. *)
Theorem emit_after_Close_panics (s : State) (i : nat) (v : list value)
    (now : Time) :
  reachable s -> closer s i = CReturned ->
  chanClosed (lg s) = true /\
  Error (lg s) v now = Panic /\
  (Info (lg s) v now <> Skipped -> Info (lg s) v now = Panic) /\
  (Debug (lg s) v now <> Skipped -> Debug (lg s) v now = Panic) /\
  step s (EError v now) = None /\
  forall l L, chanClosed l = true -> emit l L v now = Panic.
Proof.
  intros R H.
  destruct (closed_facts s i (reachable_inv s R) H) as (_ & C & _).
  assert (P : forall l L, chanClosed l = true -> emit l L v now = Panic)
    by (intros; apply emit_closed; assumption).
  split; [exact C |].
  unfold Info, Debug, Error, step.
  split; [apply P; exact C |].
  split; [destruct (_ || _); [intros _; apply P; exact C | congruence] |].
  split; [destruct (_ =? _)%string; [intros _; apply P; exact C | congruence] |].
  split; [| exact P].
  unfold Error; rewrite (P (lg s) ERROR C); reflexivity.
Qed.

Lemma emit_after_Close_panics_witness :
  Error (lg s_closed) [VString "late"] t0 = Panic /\
  Info (lg s_closed) [VString "late"] t0 = Panic.
Proof.
  assert (R : reachable s_closed)
    by (apply reachable_sample; vm_compute; discriminate).
  destruct (emit_after_Close_panics s_closed 0 [VString "late"] t0 R eq_refl)
    as (_ & A & B & _).
  split; [exact A | apply B; vm_compute; discriminate].
Defined.

(* ------------------------------------------------------------------ *)
(** ** Delivery *)

Lemma not_running_carries_nothing c L :
  running c = false -> f_carried (c_flushing c) L = [].
Proof. destruct c; simpl; intro; try reflexivity; discriminate. Qed.

(** After [Close] has returned, the sink of every severity holds, line
    for line, what the logging calls are owed, except for the messages a
    periodic flush has taken from the buffer and has not written yet. *)
Lemma delivered_after_Close s i L :
  reachable s -> closer s i = CReturned ->
  Permutation
    (sink (lg s) L ++ map (render L) (f_carried (t_flushing (ticker s)) L))
    (owed s L).
Proof.
  intros R H; pose proof (reachable_inv s R) as I.
  destruct (closed_facts s i I H) as (_ & _ & D & Q & B & NR & _).
  destruct I as (_ & _ & K).
  apply (Permutation_count_occ string_dec); intro x.
  specialize (K L x); unfold occ, pending, closer_held in K.
  rewrite Q, D, B in K; cbn [filter d_held d_flushing f_carried app] in K.
  assert (E : match once_m (lg s) with
              | Some k => f_carried (c_flushing (closer s k)) L
              | None => []
              end = []).
  { destruct (once_m (lg s)); [| reflexivity].
    apply not_running_carries_nothing, NR. }
  rewrite E, app_nil_r in K.
  rewrite count_occ_app; exact K.
Qed.

(** With no periodic flush in progress, each owed line is in its sink
    exactly once. *)
Lemma delivered_when_ticker_waits s i L :
  reachable s -> closer s i = CReturned -> ticker s = TWait ->
  Permutation (sink (lg s) L) (owed s L).
Proof.
  intros R H T; pose proof (delivered_after_Close s i L R H) as P.
  rewrite T in P; cbn [t_flushing f_carried map] in P.
  rewrite app_nil_r in P; exact P.
Qed.

(** C1 fails on the code: [Info("a")] returns, the dispatcher buffers the
    message, a tick makes [flushBufferPeriodically] take the buffer into
    its [tmp] and unlock, and then [Close] runs from call to return.
    When it has returned the message is owed to the INFO sink, that sink
    is empty, and the message is only in the [tmp] of the ticker
    goroutine, which [Close] neither stops nor waits for. *)
Theorem Close_returns_before_periodic_flush_writes :
  reachable s_race /\
  closer s_race 0 = CReturned /\
  queued s_race = [m_a] /\
  direct s_race INFO = [] /\
  owed s_race INFO = [render INFO m_a] /\
  sink (lg s_race) INFO = [] /\
  ticker s_race = TFlush INFO (FWrite [m_a]) /\
  ~ Permutation (sink (lg s_race) INFO) (owed s_race INFO).
Proof.
  split; [apply reachable_sample; vm_compute; discriminate |].
  do 6 (split; [vm_compute; reflexivity |]).
  intro P; apply Permutation_length in P; vm_compute in P; discriminate.
Qed.

(** C8 fails on the code: after [Close] has returned the ticker goroutine
    is still waiting for ticks; a tick is accepted and the three flushes
    run again.  Nothing in [Close] reaches [flushBufferPeriodically],
    whose deferred [ticker.Stop()] is behind a loop that never ends. *)
Theorem ticker_flushes_after_Close :
  reachable s_closed /\
  closer s_closed 0 = CReturned /\
  ticker s_closed = TWait /\
  (forall s, ticker s = TWait ->
     step s ETicker = Some (set_ticker s (TFlush INFO FLock))) /\
  run s_closed (repeat ETicker 16) = Some s_ticked /\
  flushes s_ticked =
    flushes s_closed ++
    [(TTicker, INFO, []); (TTicker, DEBUG, []); (TTicker, ERROR, [])] /\
  ticker s_ticked = TWait.
Proof.
  split; [apply reachable_sample; vm_compute; discriminate |].
  do 2 (split; [vm_compute; reflexivity |]).
  split.
  { intros s H; cbn [step]; unfold flushBufferPeriodically; rewrite H;
    reflexivity. }
  split; [| split]; vm_compute; reflexivity.
Qed.

(* ------------------------------------------------------------------ *)
(** ** One flush *)

Lemma upd_same {A} (f : lvl -> A) L a : upd f L a L = a.
Proof. unfold upd; destruct L; reflexivity. Qed.

Lemma upd_other {A} (f : lvl -> A) L a K : K <> L -> upd f L a K = f K.
Proof. unfold upd; destruct (lvl_eqb_spec K L); congruence. Qed.

(** The loop over [tmp]: the lines are appended in the order of [tmp]
    and nothing else changes. *)
Lemma write_loop t L : forall tmp s,
  exists s',
    flushBuffer_run (S (List.length tmp)) t L (FWrite tmp) s = Some s' /\
    sink (lg s') L = sink (lg s) L ++ map (render L) tmp /\
    (forall K, K <> L -> sink (lg s') K = sink (lg s) K) /\
    buffer (lg s') = buffer (lg s) /\ mu (lg s') = mu (lg s) /\
    flushes s' = flushes s.
Proof.
  induction tmp as [| m tmp IH]; intro s.
  - exists s; cbn; rewrite app_nil_r; repeat split; reflexivity.
  - destruct (IH (set_lg s (set_sink (lg s) L (sink (lg s) L ++ [render L m]))))
      as (s' & R & S1 & S2 & B & M & F).
    exists s'; split; [exact R |].
    simp_state; rewrite upd_same in S1.
    split; [rewrite S1, <- app_assoc; reflexivity |].
    split; [| repeat split; assumption].
    intros K N; rewrite (S2 K N); apply upd_other; exact N.
Qed.

Lemma flushBuffer_run_step k t L f s f' s' :
  flushBuffer t L f s = Some (Some f', s') ->
  flushBuffer_run (S k) t L f s = flushBuffer_run k t L f' s'.
Proof. intro E; cbn [flushBuffer_run]; rewrite E; reflexivity. Qed.

(** A whole flush on a free mutex. *)
Lemma flush_alone t L s :
  mu (lg s) L = None ->
  exists s',
    flushBuffer_run (5 + List.length (buffer (lg s) L)) t L FLock s = Some s' /\
    buffer (lg s') L = [] /\
    sink (lg s') L = sink (lg s) L ++ map (render L) (buffer (lg s) L) /\
    mu (lg s') L = None /\
    flushes s' = flushes s ++ [(t, L, buffer (lg s) L)].
Proof.
  intro Free.
  cbn [Nat.add].
  erewrite flushBuffer_run_step
    by (cbn [flushBuffer]; rewrite Free; reflexivity).
  do 3 (erewrite flushBuffer_run_step by reflexivity).
  match goal with
  | |- exists s', flushBuffer_run _ _ _ (FWrite ?tmp) ?s0 = _ /\ _ =>
      destruct (write_loop t L tmp s0) as (s' & R & S1 & _ & B & M & F)
  end.
  exists s'; split; [exact R |].
  rewrite B, M, S1, F; simp_state.
  repeat split; try reflexivity; apply upd_same.
Qed.

(** C5: in every reachable state, a goroutine inside [flushBuffer] on
    the buffer of [L] holds the mutex of [L] from the copy to the unlock
    and holds no buffer mutex before the lock or while it writes; at the
    reset its [tmp] is the whole buffer, and the reset leaves the buffer
    empty with the mutex still held; a write appends the line of the
    first message of [tmp] to the sink of [L]; and a flush that runs
    alone on a free mutex ends with the buffer empty and the lines of
    its messages appended to the sink in buffer order. *)
Theorem flush_atomic_and_in_order (s : State) (t : tid) (L : lvl) (f : fpc) :
  reachable s -> flushing s t = Some (L, f) ->
  (critical f = true -> mu (lg s) L = Some t) /\
  (critical f = false -> forall K, mu (lg s) K <> Some t) /\
  (forall tmp, f = FReset tmp ->
     buffer (lg s) L = tmp /\
     exists s', flushBuffer t L f s = Some (Some (FUnlock tmp), s') /\
                buffer (lg s') L = [] /\ mu (lg s') L = Some t) /\
  (forall m tmp, f = FWrite (m :: tmp) ->
     exists s', flushBuffer t L f s = Some (Some (FWrite tmp), s') /\
                sink (lg s') L = sink (lg s) L ++ [render L m]) /\
  (forall s0, mu (lg s0) L = None ->
     exists s',
       flushBuffer_run (5 + List.length (buffer (lg s0) L)) t L FLock s0 =
         Some s' /\
       buffer (lg s') L = [] /\
       sink (lg s') L = sink (lg s0) L ++ map (render L) (buffer (lg s0) L) /\
       mu (lg s') L = None).
Proof.
  intros R F; destruct (reachable_inv s R) as ((A & B & _) & _ & _).
  assert (HL : forall K, holds s t K = lvl_eqb K L && critical f).
  { intro K; destruct t; cbn [holds flushing] in *;
      try (rewrite F; reflexivity).
    apply d_holds_flushing; exact F. }
  split.
  { intro C; apply A; rewrite HL, C.
    destruct (lvl_eqb_spec L L); [reflexivity | congruence]. }
  split.
  { intros C K E; apply A in E; rewrite HL, C, andb_false_r in E.
    discriminate. }
  split.
  { intros tmp ->; pose proof (B t L tmp F) as E; split; [exact E |].
    assert (M : mu (lg s) L = Some t).
    { apply A; rewrite HL; cbn.
      destruct (lvl_eqb_spec L L); [reflexivity | congruence]. }
    eexists; split; [reflexivity |]; simp_state.
    split; [apply upd_same | exact M]. }
  split.
  { intros m tmp ->; eexists; split; [reflexivity |].
    simp_state; apply upd_same. }
  intros s0 Free; destruct (flush_alone t L s0 Free) as (s' & X & Y & Z & W & _).
  exists s'; repeat split; assumption.
Qed.

Lemma flush_atomic_and_in_order_witness :
  mu (lg s_reset) INFO = Some TTicker /\ buffer (lg s_reset) INFO = [m_a].
Proof.
  assert (R : reachable s_reset)
    by (apply reachable_sample; vm_compute; discriminate).
  destruct (flush_atomic_and_in_order s_reset TTicker INFO (FReset [m_a]) R
              eq_refl) as (A & _ & B & _).
  split; [apply A; reflexivity | apply (B [m_a] eq_refl)].
Defined.

(* ------------------------------------------------------------------ *)
(** ** The dispatcher alone *)

Lemma run_app es1 : forall es2 s,
  run s (es1 ++ es2) =
    match run s es1 with Some s1 => run s1 es2 | None => None end.
Proof.
  induction es1 as [| e es1 IH]; intros es2 s; simpl; [reflexivity |].
  destruct (step s e); [apply IH | reflexivity].
Qed.

Lemma run_S s e n s1 :
  step s e = Some s1 -> run s (repeat e (S n)) = run s1 (repeat e n).
Proof. intro E; cbn [repeat run]; rewrite E; reflexivity. Qed.

(** One step of the dispatcher from a known program point. *)
Ltac dispatcher_step :=
  erewrite run_S
    by (cbn [step]; unfold processLogMessages; simp_state;
        repeat match goal with
               | E : _ = _ |- _ => rewrite E
               end;
        cbn [flushBuffer]; simp_state;
        repeat match goal with
               | E : _ = _ |- _ => rewrite E
               end;
        reflexivity).

(** Receive, lock, append, unlock: one message into its buffer. *)
Lemma dispatch_message s L m q :
  dispatcher s = DRecv -> logChannel (lg s) = m :: q ->
  levelOf (level m) = Some L -> mu (lg s) L = None ->
  exists s',
    run s (repeat EDispatcher 4) = Some s' /\
    dispatcher s' =
      (if bufferSize (lg s) <=? Z.of_nat (List.length (buffer (lg s) L ++ [m]))
       then DFlush L FLock else DRecv) /\
    logChannel (lg s') = q /\
    buffer (lg s') L = buffer (lg s) L ++ [m] /\
    mu (lg s') L = None /\
    sink (lg s') = sink (lg s) /\ flushes s' = flushes s /\
    bufferSize (lg s') = bufferSize (lg s).
Proof.
  intros D C V F.
  do 4 dispatcher_step.
  eexists; split; [reflexivity |]; simp_state; rewrite !upd_same.
  repeat split; reflexivity.
Qed.

(** The writes of a flush by the dispatcher, up to its return to the
    loop. *)
Lemma dispatch_writes L : forall tmp s,
  dispatcher s = DFlush L (FWrite tmp) ->
  exists s',
    run s (repeat EDispatcher (S (List.length tmp))) = Some s' /\
    dispatcher s' = DRecv /\
    sink (lg s') L = sink (lg s) L ++ map (render L) tmp /\
    logChannel (lg s') = logChannel (lg s) /\
    buffer (lg s') = buffer (lg s) /\ mu (lg s') = mu (lg s) /\
    flushes s' = flushes s /\ bufferSize (lg s') = bufferSize (lg s).
Proof.
  induction tmp as [| m tmp IH]; intros s D.
  - cbn [List.length]; dispatcher_step.
    eexists; split; [reflexivity |]; simp_state.
    rewrite app_nil_r; repeat split; reflexivity.
  - cbn [List.length]; dispatcher_step.
    match goal with
    | |- exists s', run ?s1 _ = _ /\ _ =>
        destruct (IH s1 eq_refl) as (s' & R & D' & S1 & C & B & M & F & Z)
    end.
    exists s'; split; [exact R |].
    rewrite S1, C, B, M, F, Z, D'; simp_state; rewrite upd_same, <- app_assoc.
    repeat split; reflexivity.
Qed.

(** A whole flush by the dispatcher on a free mutex. *)
Lemma dispatch_flush s L :
  dispatcher s = DFlush L FLock -> mu (lg s) L = None ->
  exists s',
    run s (repeat EDispatcher (5 + List.length (buffer (lg s) L))) = Some s' /\
    dispatcher s' = DRecv /\
    buffer (lg s') L = [] /\
    sink (lg s') L = sink (lg s) L ++ map (render L) (buffer (lg s) L) /\
    flushes s' = flushes s ++ [(TDispatcher, L, buffer (lg s) L)] /\
    logChannel (lg s') = logChannel (lg s) /\
    mu (lg s') L = None /\ bufferSize (lg s') = bufferSize (lg s).
Proof.
  intros D F.
  cbn [Nat.add].
  do 4 dispatcher_step.
  match goal with
  | |- exists s', run ?s1 _ = _ /\ _ =>
      destruct (dispatch_writes L (buffer (lg s) L) s1 eq_refl)
        as (s' & R & D' & S1 & C & B & M & Fl & Z)
  end.
  exists s'; split; [exact R |].
  rewrite S1, C, B, M, Fl, Z, D'; simp_state; rewrite !upd_same.
  repeat split; reflexivity.
Qed.

(** Messages below the size are appended and nothing is flushed. *)
Lemma dispatch_fill L : forall msgs s q,
  dispatcher s = DRecv -> logChannel (lg s) = msgs ++ q ->
  Forall (fun m => levelOf (level m) = Some L) msgs ->
  mu (lg s) L = None ->
  Z.of_nat (List.length (buffer (lg s) L) + List.length msgs) < bufferSize (lg s) ->
  exists s',
    run s (repeat EDispatcher (4 * List.length msgs)) = Some s' /\
    dispatcher s' = DRecv /\
    logChannel (lg s') = q /\
    buffer (lg s') L = buffer (lg s) L ++ msgs /\
    mu (lg s') L = None /\
    sink (lg s') = sink (lg s) /\ flushes s' = flushes s /\
    bufferSize (lg s') = bufferSize (lg s).
Proof.
  induction msgs as [| m msgs IH]; intros s q D C V F B.
  - exists s; cbn; rewrite app_nil_r; repeat split; auto.
  - inversion V as [| ? ? Vm Vr]; subst.
    destruct (dispatch_message s L m (msgs ++ q) D C Vm F)
      as (s1 & R1 & D1 & C1 & B1 & F1 & S1 & Fl1 & Z1).
    assert (N : (bufferSize (lg s) <=?
                 Z.of_nat (List.length (buffer (lg s) L ++ [m]))) = false).
    { apply Z.leb_gt; rewrite List.length_app; cbn [List.length] in *; lia. }
    rewrite N in D1.
    destruct (IH s1 q D1 C1 Vr F1) as (s' & R & D' & C' & B' & F' & S' & Fl' & Z').
    { rewrite B1, Z1, List.length_app; cbn [List.length] in *; lia. }
    exists s'.
    replace (4 * List.length (m :: msgs))%nat
      with (4 + 4 * List.length msgs)%nat by (cbn [List.length]; lia).
    rewrite repeat_app, run_app, R1.
    split; [exact R |].
    rewrite B', B1, <- app_assoc, S', S1, Fl', Fl1, Z', Z1.
    repeat split; auto.
Qed.

Lemma step_bufferSize s e s' :
  step s e = Some s' -> bufferSize (lg s') = bufferSize (lg s).
Proof. intro H; by_event e H; reflexivity. Qed.

Lemma reachable_bufferSize s : reachable s -> 0 < bufferSize (lg s).
Proof.
  intros (mkdirOk & logDir & logPrefix & size & interval & min & l & es & N & R).
  apply NewLogger_created in N; destruct N as [-> P].
  assert (G : forall es b, run b es = Some s ->
                           bufferSize (lg s) = bufferSize (lg b)).
  { clear; induction es as [| e es IH]; intros b R; simpl in R.
    - injection R as ->; reflexivity.
    - destruct (step b e) as [b1 |] eqn:E; [| discriminate].
      rewrite (IH b1 R); exact (step_bufferSize b e b1 E). }
  rewrite (G es _ R); exact P.
Qed.


(* ------------------------------------------------------------------ *)
(** ** Induction over the reachable states *)

Lemma reachable_boot size interval min :
  0 < size -> reachable (boot (fresh size interval min)).
Proof.
  intro P.
  exists true, "logs"%string, "app"%string, size, interval, min,
    (fresh size interval min), [].
  split; [| reflexivity].
  unfold NewLogger; cbn [negb].
  destruct (Z.leb_spec size 0); [lia | reflexivity].
Qed.

Lemma reachable_step s e s' : reachable s -> step s e = Some s' -> reachable s'.
Proof.
  intros R H; apply (reachable_run s [e] s' R); simpl; rewrite H; reflexivity.
Qed.

Lemma reachable_ind (P : State -> Prop) :
  (forall size interval min, 0 < size -> P (boot (fresh size interval min))) ->
  (forall s e s', reachable s -> P s -> step s e = Some s' -> P s') ->
  forall s, reachable s -> P s.
Proof.
  intros B S s (mkdirOk & logDir & logPrefix & size & interval & min & l & es & N & R).
  apply NewLogger_created in N; destruct N as [-> Pos].
  assert (G : forall es b, reachable b -> P b -> run b es = Some s -> P s).
  { clear - S; induction es as [| e es IH]; intros b Rb Pb H; simpl in H.
    - injection H as <-; exact Pb.
    - destruct (step b e) as [b1 |] eqn:E; [| discriminate].
      exact (IH b1 (reachable_step b e b1 Rb E) (S b e b1 Rb Pb E) H). }
  exact (G es _ (reachable_boot size interval min Pos) (B _ _ _ Pos) R).
Qed.

(* ------------------------------------------------------------------ *)
(** ** Consequences of the invariants *)

(** X1: at every moment of every execution, for each severity, the
    chunks in the sink together with the lines of the messages still on
    their way (in the channel, in the dispatcher's hands, in the buffer
    or in the [tmp] of a flush) are, counted with multiplicity, the lines
    of the messages the logging calls queued plus the lines they wrote
    directly: the pipeline neither loses nor duplicates nor invents a
    line, and never writes one to the sink of another severity. *)
Theorem nothing_lost_nothing_doubled (s : State) (L : lvl) :
  reachable s ->
  Permutation (sink (lg s) L ++ map (render L) (pending s L)) (owed s L) /\
  (forall x, In x (sink (lg s) L) -> In x (owed s L)).
Proof.
  intro R; destruct (reachable_inv s R) as (_ & _ & K).
  assert (P : Permutation (sink (lg s) L ++ map (render L) (pending s L))
                          (owed s L)).
  { apply (Permutation_count_occ string_dec); intro x.
    rewrite count_occ_app; exact (K L x). }
  split; [exact P |].
  intros x H; apply (Permutation_in x P), in_or_app; left; exact H.
Qed.

Lemma nothing_lost_nothing_doubled_witness :
  Permutation
    (sink (lg s_race) INFO ++ map (render INFO) (pending s_race INFO))
    (owed s_race INFO) /\
  pending s_race INFO = [m_a].
Proof.
  assert (R : reachable s_race)
    by (apply reachable_sample; vm_compute; discriminate).
  destruct (nothing_lost_nothing_doubled s_race INFO R) as [P _].
  split; [exact P | vm_compute; reflexivity].
Defined.

(** X2: when an invocation of [Close] has returned and
    [flushBufferPeriodically] is not in the middle of a flush (it waits
    for a tick, or never started), the sink of each severity holds,
    counted with multiplicity, exactly the lines of the messages queued
    at that severity and the lines written directly: every logged
    message is there once. *)
Theorem exactly_once_after_Close (s : State) (i : nat) (L : lvl) :
  reachable s -> closer s i = CReturned ->
  t_flushing (ticker s) = None ->
  Permutation (sink (lg s) L) (owed s L) /\
  List.length (sink (lg s) L) =
    (List.length (filter (at_level L) (queued s)) +
     List.length (direct s L))%nat.
Proof.
  intros R H T; pose proof (delivered_after_Close s i L R H) as P.
  rewrite T in P; cbn [f_carried map] in P; rewrite app_nil_r in P.
  split; [exact P |].
  rewrite (Permutation_length P); unfold owed.
  rewrite List.length_app, !length_map; reflexivity.
Qed.

Lemma exactly_once_after_Close_witness :
  Permutation (sink (lg s_closed) INFO) (owed s_closed INFO) /\
  List.length (sink (lg s_closed) INFO) = 1%nat.
Proof.
  assert (R : reachable s_closed)
    by (apply reachable_sample; vm_compute; discriminate).
  assert (H : closer s_closed 0 = CReturned) by (vm_compute; reflexivity).
  assert (T : t_flushing (ticker s_closed) = None) by (vm_compute; reflexivity).
  destruct (exactly_once_after_Close s_closed 0 INFO R H T) as [A B].
  split; [exact A | rewrite B; vm_compute; reflexivity].
Defined.

(** X3: mutual exclusion.  In every reachable state at most one
    goroutine is between [Lock] and [Unlock] of the mutex of a buffer,
    and at most one invocation of [Close] is inside [doSlow]. *)
Theorem one_goroutine_per_mutex (s : State) :
  reachable s ->
  (forall L t t', holds s t L = true -> holds s t' L = true -> t = t') /\
  (forall i j, in_slow (closer s i) = true -> in_slow (closer s j) = true ->
               i = j).
Proof.
  intro R; destruct (reachable_inv s R) as ((A & _ & C) & _ & _); split.
  - intros L t t' H H'; apply A in H; apply A in H'; congruence.
  - intros i j H H'; apply C in H; apply C in H'; congruence.
Qed.

Lemma one_goroutine_per_mutex_witness :
  holds s_reset TTicker INFO = true /\ holds s_reset TDispatcher INFO = false.
Proof.
  assert (R : reachable s_reset)
    by (apply reachable_sample; vm_compute; discriminate).
  destruct (one_goroutine_per_mutex s_reset R) as [A _].
  assert (H : holds s_reset TTicker INFO = true) by (vm_compute; reflexivity).
  split; [exact H |].
  destruct (holds s_reset TDispatcher INFO) eqn:E; [| reflexivity].
  discriminate (A INFO TTicker TDispatcher H E).
Defined.

(** X4: no goroutine blocks while it holds a buffer mutex.  In every
    reachable state the holder of the mutex of a buffer can take its
    next step: inside the critical sections there is no lock, no channel
    operation and no write to a sink. *)
Theorem holder_is_never_blocked (s : State) (L : lvl) (t : tid) :
  reachable s -> mu (lg s) L = Some t -> step s (event_of t) <> None.
Proof.
  intros R M; destruct (reachable_inv s R) as ((A & _ & _) & _ & _).
  apply A in M; destruct t as [| | i]; cbn [holds event_of step] in *.
  - unfold processLogMessages.
    destruct (dispatcher s) as [| m | K m | K n | K f |]; try discriminate.
    + destruct f; try discriminate;
        cbn in M; rewrite ?andb_false_r in M; discriminate.
  - unfold flushBufferPeriodically.
    destruct (ticker s) as [| | K f]; try discriminate.
    destruct f; try discriminate; cbn in M; rewrite ?andb_false_r in M;
      discriminate.
  - unfold Close.
    destruct (closer s i) as [| | | | | | K f | | |]; try discriminate.
    destruct f; try discriminate; cbn in M; rewrite ?andb_false_r in M;
      discriminate.
Qed.

Lemma holder_is_never_blocked_witness : step s_reset ETicker <> None.
Proof.
  assert (R : reachable s_reset)
    by (apply reachable_sample; vm_compute; discriminate).
  assert (M : mu (lg s_reset) INFO = Some TTicker)
    by (vm_compute; reflexivity).
  exact (holder_is_never_blocked s_reset INFO TTicker R M).
Defined.

(* ------------------------------------------------------------------ *)
(** ** Bounds *)

Lemma known_name L now v : known (mkMsg (name L) now v).
Proof. destruct L; unfold known; cbv; discriminate. Qed.

(** A logging call, with the state of the channel it met. *)
Lemma step_logging_bound s e s' :
  step s e = Some s' ->
  match e with
  | EInfo _ _ | EDebug _ _ | EError _ _ =>
      s' = s \/
      (exists L v now,
         (List.length (logChannel (lg s)) < chanCap)%nat /\
         s' = enqueue s L v now) \/
      (exists L v,
         (chanCap <= List.length (logChannel (lg s)))%nat /\
         s' = bypass s L v)
  | _ => True
  end.
Proof.
  assert (G : forall L v now,
            called s L v now (emit (lg s) L v now) = Some s' ->
            s' = s \/
            (exists L v now,
               (List.length (logChannel (lg s)) < chanCap)%nat /\
               s' = enqueue s L v now) \/
            (exists L v,
               (chanCap <= List.length (logChannel (lg s)))%nat /\
               s' = bypass s L v)).
  { intros L v now; unfold emit, trySend.
    destruct (chanClosed (lg s)); [discriminate |].
    destruct (Nat.ltb_spec (List.length (logChannel (lg s))) chanCap);
      cbn; intro E; injection E as <-; right.
    - left; exists L, v, now; split; [assumption | reflexivity].
    - right; exists L, v; split; [assumption | reflexivity]. }
  destruct e; cbn [step]; auto; unfold Info, Debug, Error;
    repeat match goal with
           | |- context [if ?b then _ else _] => destruct b
           end;
    try apply G; intro H; injection H as <-; left; reflexivity.
Qed.

Lemma bound_inv_boot size interval min :
  0 < size -> bound_inv (boot (fresh size interval min)).
Proof.
  intro P; split; [apply Nat.le_0_l |].
  split; [constructor |].
  repeat split; cbn; intros; try discriminate; lia.
Qed.

Ltac bound_crunch :=
  simp_state; use_pcs_keep; unfold upd in *;
  repeat match goal with
         | |- context [?a <=? ?b] => destruct (Z.leb_spec a b)
         | H : context [?a <=? ?b] |- _ => destruct (Z.leb_spec a b)
         end;
  cbn [must_flush] in *;
  split_vars; split_eqb; cbn [List.length] in *;
  repeat match goal with
         | H : ?a = ?a -> _ |- _ => specialize (H eq_refl)
         end;
  rewrite ?List.length_app in *; cbn [List.length] in *;
  try congruence; try lia; auto.

Lemma bound_inv_step s e s' :
  reachable s -> bound_inv s -> step s e = Some s' -> bound_inv s'.
Proof.
  intros R (C & K & DL & BF & BB) H.
  pose proof (reachable_bufferSize s R) as Pos.
  destruct e.
  1-3: apply step_logging_bound in H;
       destruct H as [-> | [(L & v' & now' & Lt & ->) | (L & v' & Ge & ->)]];
       repeat split; simp_state; auto;
       try (rewrite List.length_app; cbn [List.length]; lia);
       try (apply Forall_app; split; [exact K |];
            constructor; [apply known_name | constructor]).
  all: step_cases H; repeat split; simp_state.
  all: try match goal with
           | E : logChannel _ = _ |- _ =>
               try rewrite E in *; inversion K; subst; cbn [List.length] in *
           end.
  all: try (intros m' E'; try discriminate E'; try injection E' as <-;
            bound_crunch; fail).
  all: try (intro K'; pose proof (BF K'); pose proof (BB K');
            try match goal with |- _ = _ -> _ => intro MF end;
            bound_crunch; fail).
  all: try (bound_crunch; fail).
Qed.

Lemma reachable_bound s : reachable s -> bound_inv s.
Proof.
  revert s; apply reachable_ind.
  - intros; apply bound_inv_boot; assumption.
  - intros s e s' R I H; exact (bound_inv_step s e s' R I H).
Qed.

(** X5: bounded memory.  In every reachable state the channel holds at
    most 5000 messages and each buffer at most [bufferSize] messages, so
    the slices made by [NewLogger] with that capacity never grow; and
    whenever the dispatcher is about to append to a buffer, that buffer
    holds fewer than [bufferSize] messages. *)
Theorem channel_and_buffers_bounded (s : State) (L : lvl) :
  reachable s ->
  (List.length (logChannel (lg s)) <= 5000)%nat /\
  (Z.of_nat (List.length (buffer (lg s) L)) <= bufferSize (lg s)) /\
  (forall m, dispatcher s = DAppend L m ->
     Z.of_nat (List.length (buffer (lg s) L)) < bufferSize (lg s)).
Proof.
  intro R; destruct (reachable_bound s R) as (C & _ & _ & BF & BB).
  split; [exact C |]; split; [apply BB |].
  intros m D; apply BF; rewrite D; reflexivity.
Qed.

Lemma channel_and_buffers_bounded_witness :
  Z.of_nat (List.length (buffer (lg s_reset) INFO)) <= 2.
Proof.
  assert (R : reachable s_reset)
    by (apply reachable_sample; vm_compute; discriminate).
  destruct (channel_and_buffers_bounded s_reset INFO R) as (_ & B & _).
  exact B.
Defined.

(** X6: the if-chain of [processLogMessages] never falls through.  In
    every reachable state every message in the channel, and the message
    the dispatcher has just received, carries one of the levels "INFO",
    "DEBUG" and "ERROR", so the dispatcher never drops a message. *)
Theorem dispatcher_never_drops (s : State) :
  reachable s ->
  Forall (fun m => exists L, levelOf (level m) = Some L)
    (logChannel (lg s)) /\
  (forall m, dispatcher s = DLock m ->
     exists L, levelOf (level m) = Some L /\
               step s EDispatcher <> Some (set_dispatcher s DRecv)).
Proof.
  intro R; destruct (reachable_bound s R) as (_ & K & DL & _ & _).
  assert (G : forall m, known m -> exists L, levelOf (level m) = Some L).
  { intros m Km; unfold known in Km.
    destruct (levelOf (level m)) as [L |]; [exists L; reflexivity | congruence]. }
  split.
  - revert K; apply Forall_impl; exact G.
  - intros m D; destruct (G m (DL m D)) as [L E].
    exists L; split; [exact E |].
    cbn [step]; unfold processLogMessages; rewrite D, E.
    destruct (mu (lg s) L); [discriminate |].
    intro H; apply (f_equal (option_map dispatcher)) in H.
    discriminate H.
Qed.

Lemma dispatcher_never_drops_witness :
  Forall (fun m => exists L, levelOf (level m) = Some L)
    (logChannel (lg s_two)).
Proof.
  assert (R : reachable s_two)
    by (apply reachable_sample; vm_compute; discriminate).
  destruct (dispatcher_never_drops s_two R) as [A _]; exact A.
Defined.


(* ------------------------------------------------------------------ *)
(** ** The function of [Close] *)

Ltac close_crunch :=
  simp_pcs; simp_state; simp_pcs; simp_life; cbn [copied] in *;
  unfold upd in *; split_eqb;
  use_pcs_keep; simp_pcs; simp_life; cbn [copied] in *;
  use_holder; use_pcs_keep; simp_pcs; simp_life; cbn [copied] in *;
  unfold lvl_ltb in *; split_vars; split_eqb;
  simp_pcs; simp_life; cbn [copied List.length app Nat.add] in *;
  try congruence; try lia.

Lemma close_inv_step s e s' :
  mutex_inv s -> life_inv s -> close_inv s -> step s e = Some s' ->
  close_inv s'.
Proof.
  intros M I (CC & FF) H.
  by_event e H; destruct M as (A & B & C);
    destruct I as (W & D1 & D2 & PC & PW & E & O1 & O2 & O3 & R & AO & N);
    (split; [| intro K'; specialize (FF K'); revert FF;
               unfold final_flushes; simp_state;
               rewrite ?filter_app, ?List.length_app;
               cbn [filter by_Close List.length];
               destruct (once_done (lg s)) eqn:?;
               destruct (once_m (lg s)) as [k|] eqn:?; intro FF;
               pose_closers PC; pose_closers PW; pose_closers R;
               pose_closers AO; pose_once C; pose_pc_facts s;
               close_crunch]).
  all: simp_state; try assumption.
  all: intro Hc;
       first [ specialize (CC Hc) | specialize (CC eq_refl)
             | right; exists i; split;
               [apply C; rewrite Heqc; reflexivity | close_crunch]; fail
             | idtac ].
  all: try (destruct CC as [Dn | (k & Hk & Pk)];
            [ first [congruence | left; simp_state; first [exact Dn | reflexivity | congruence]]
            | try rewrite Hk in *; pose_once C;
              first [ left; simp_state; reflexivity
                    | right; exists k; simp_state; split;
                      [first [assumption | reflexivity] | close_crunch]; fail
                    | exfalso; close_crunch; fail ] ]; fail).
Qed.

Lemma close_inv_boot size interval min :
  close_inv (boot (fresh size interval min)).
Proof. split; [discriminate | intro L; reflexivity]. Qed.

Lemma reachable_close_inv s : reachable s -> close_inv s.
Proof.
  revert s; apply reachable_ind.
  - intros; apply close_inv_boot.
  - intros s e s' R I H; destruct (reachable_inv s R) as (M & F & _).
    exact (close_inv_step s e s' M F I H).
Qed.


(** X7: [Close] never panics.  In every reachable state the channel is
    closed only if the function given to [once.Do] has been entered, and
    an invocation that is about to execute [close(l.logChannel)] finds
    the channel open: "close of closed channel" cannot happen, however
    many times and from however many goroutines [Close] is called. *)
Theorem Close_never_closes_twice (s : State) (i : nat) :
  reachable s ->
  (chanClosed (lg s) = true -> runs s = 1%nat) /\
  (closer s i = CCloseChan ->
     chanClosed (lg s) = false /\
     step s (EClose i) =
       Some (set_closer (set_lg s (set_chanClosed (lg s) true)) i CWait)).
Proof.
  intro R; destruct (reachable_inv s R) as ((_ & _ & C) & F & _).
  destruct F as (_ & _ & _ & _ & _ & _ & _ & _ & _ & Rn & _ & N).
  destruct (reachable_close_inv s R) as (CC & _).
  split.
  - intro Hc; rewrite N; unfold entered.
    destruct (CC Hc) as [-> | (k & -> & Pk)]; [reflexivity |].
    destruct (once_done (lg s)); [reflexivity |].
    rewrite (past_close_running _ Pk); reflexivity.
  - intro H.
    assert (Open : chanClosed (lg s) = false).
    { destruct (chanClosed (lg s)) eqn:Hc; [| reflexivity].
      assert (Dn : once_done (lg s) = false)
        by (apply (Rn i); rewrite H; reflexivity).
      destruct (CC eq_refl) as [Dn' | (k & Hk & Pk)]; [congruence |].
      assert (Hi : once_m (lg s) = Some i)
        by (apply C; rewrite H; reflexivity).
      assert (k = i) by congruence; subst k.
      rewrite H in Pk; discriminate Pk. }
    split; [exact Open |].
    cbn [step]; unfold Close; rewrite H, Open; reflexivity.
Qed.

Lemma Close_never_closes_twice_witness : runs s_closed = 1%nat.
Proof.
  assert (R : reachable s_closed)
    by (apply reachable_sample; vm_compute; discriminate).
  destruct (Close_never_closes_twice s_closed 0 R) as [A _].
  apply A; vm_compute; reflexivity.
Defined.

(** X8: the final flushes happen once.  In every reachable state each
    of the three buffers has been flushed by an invocation of [Close] at
    most once, and exactly once as soon as some invocation has
    returned, whatever the number of invocations. *)
Theorem final_flush_once_per_buffer (s : State) (L : lvl) :
  reachable s ->
  (List.length (filter (by_Close L) (flushes s)) <= 1)%nat /\
  (forall i, closer s i = CReturned ->
     List.length (filter (by_Close L) (flushes s)) = 1%nat).
Proof.
  intro R; destruct (reachable_close_inv s R) as (_ & FF).
  rewrite (FF L); unfold final_flushes; split.
  - destruct (once_done (lg s)); [lia |].
    destruct (once_m (lg s)); [| lia].
    destruct (copied _ _); lia.
  - intros i H.
    destruct (closed_facts s i (reachable_inv s R) H) as (-> & _).
    reflexivity.
Qed.

Lemma final_flush_once_per_buffer_witness :
  List.length (filter (by_Close DEBUG) (flushes s_twice)) = 1%nat.
Proof.
  assert (R : reachable s_twice)
    by (apply reachable_sample; vm_compute; discriminate).
  destruct (final_flush_once_per_buffer s_twice DEBUG R) as [_ A].
  apply (A 1%nat); vm_compute; reflexivity.
Defined.

(* ------------------------------------------------------------------ *)
(** ** One goroutine at a time *)

(** The loop over [tmp], with everything it leaves alone. *)
Lemma write_loop_frame t L : forall tmp s,
  exists s',
    flushBuffer_run (S (List.length tmp)) t L (FWrite tmp) s = Some s' /\
    sink (lg s') L = sink (lg s) L ++ map (render L) tmp /\
    (forall K, K <> L -> sink (lg s') K = sink (lg s) K) /\
    buffer (lg s') = buffer (lg s) /\ mu (lg s') = mu (lg s) /\
    logChannel (lg s') = logChannel (lg s) /\
    chanClosed (lg s') = chanClosed (lg s) /\
    once_done (lg s') = once_done (lg s) /\ once_m (lg s') = once_m (lg s) /\
    wg (lg s') = wg (lg s) /\ bufferSize (lg s') = bufferSize (lg s) /\
    log_level (lg s') = log_level (lg s) /\
    flushes s' = flushes s.
Proof.
  induction tmp as [| m tmp IH]; intro s.
  - exists s; cbn; rewrite app_nil_r; repeat split; reflexivity.
  - destruct (IH (set_lg s (set_sink (lg s) L (sink (lg s) L ++ [render L m]))))
      as (s' & R & S1 & S2 & B & M & C & CC & OD & OM & W & Z & LL & F).
    exists s'; split; [exact R |].
    rewrite S1, B, M, C, CC, OD, OM, W, Z, LL, F; simp_state.
    rewrite upd_same, <- app_assoc.
    split; [reflexivity |].
    split; [| repeat split; reflexivity].
    intros K N; rewrite (S2 K N); apply upd_other; exact N.
Qed.

(** A whole flush on a free mutex, with everything it leaves alone. *)
Lemma flush_alone_effect t L s :
  mu (lg s) L = None ->
  exists s',
    flushBuffer_run (5 + List.length (buffer (lg s) L)) t L FLock s = Some s' /\
    flush_effect L (lg s) (lg s') /\
    flushes s' = flushes s ++ [(t, L, buffer (lg s) L)].
Proof.
  intro Free.
  cbn [Nat.add].
  erewrite flushBuffer_run_step
    by (cbn [flushBuffer]; rewrite Free; reflexivity).
  do 3 (erewrite flushBuffer_run_step by reflexivity).
  match goal with
  | |- exists s', flushBuffer_run _ _ _ (FWrite ?tmp) ?s0 = _ /\ _ =>
      destruct (write_loop_frame t L tmp s0)
        as (s' & R & S1 & S2 & B & M & C & CC & OD & OM & W & Z & LL & F)
  end.
  exists s'; split; [exact R |].
  unfold flush_effect.
  rewrite S1, B, M, C, CC, OD, OM, W, Z, LL, F; simp_state.
  rewrite !upd_same.
  split; [| reflexivity].
  split; [reflexivity |].
  split; [reflexivity |].
  split.
  { intros K N; split; [apply upd_other; exact N |].
    rewrite (S2 K N); reflexivity. }
  split.
  { intro K; unfold upd; destruct (lvl_eqb_spec K L);
      [subst; auto | reflexivity]. }
  repeat split; reflexivity.
Qed.

(** [flushBuffer] reads and writes only the logger and the record of
    flushes. *)
Lemma flushBuffer_data t L f s1 s2 :
  lg s1 = lg s2 -> flushes s1 = flushes s2 ->
  match flushBuffer t L f s1, flushBuffer t L f s2 with
  | Some (o1, r1), Some (o2, r2) =>
      o1 = o2 /\ lg r1 = lg r2 /\ flushes r1 = flushes r2 /\
      dispatcher r2 = dispatcher s2 /\ ticker r2 = ticker s2 /\
      closer r2 = closer s2 /\ same_history s2 r2
  | None, None => True
  | _, _ => False
  end.
Proof.
  intros E F; unfold flushBuffer, same_history; rewrite E.
  destruct f as [| | tmp | tmp | [| m tmp]];
    try destruct (mu (lg s2) L); simp_state; rewrite ?E, ?F;
    repeat split; auto.
Qed.

Lemma same_history_trans a b c :
  same_history a b -> same_history b c -> same_history a c.
Proof. unfold same_history; intuition congruence. Qed.

(** The fuel of a solo flush is exactly the number of its steps. *)
Lemma write_loop_minimal t L : forall tmp s,
  flushBuffer_run (List.length tmp) t L (FWrite tmp) s = None.
Proof.
  induction tmp as [| m tmp IH]; intro s; [reflexivity |].
  cbn [List.length]; erewrite flushBuffer_run_step by reflexivity; apply IH.
Qed.

Lemma flush_alone_minimal t L s :
  mu (lg s) L = None ->
  flushBuffer_run (4 + List.length (buffer (lg s) L)) t L FLock s = None.
Proof.
  intro Free; cbn [Nat.add].
  erewrite flushBuffer_run_step
    by (cbn [flushBuffer]; rewrite Free; reflexivity).
  do 3 (erewrite flushBuffer_run_step by reflexivity).
  apply write_loop_minimal.
Qed.

Ltac history := unfold same_history in *; simp_state; intuition congruence.

(** A solo run of [flushBuffer] as steps of the ticker goroutine. *)
Lemma ticker_flush_steps L : forall n f s1 s2 r1,
  flushBuffer_run (S n) TTicker L f s1 = Some r1 ->
  flushBuffer_run n TTicker L f s1 = None ->
  lg s1 = lg s2 -> flushes s1 = flushes s2 -> ticker s2 = TFlush L f ->
  exists r2,
    run s2 (repeat ETicker (S n)) = Some r2 /\
    lg r2 = lg r1 /\ flushes r2 = flushes r1 /\ ticker r2 = t_next L /\
    dispatcher r2 = dispatcher s2 /\ closer r2 = closer s2 /\
    same_history s2 r2.
Proof.
  induction n as [| n IH]; intros f s1 s2 r1 H Min E F T;
    cbn [flushBuffer_run] in H, Min;
    pose proof (flushBuffer_data TTicker L f s1 s2 E F) as D;
    destruct (flushBuffer TTicker L f s1) as [[[f1 |] x1] |];
    try discriminate;
    destruct (flushBuffer TTicker L f s2) as [[o2 x2] |] eqn:E2;
    try contradiction;
    destruct D as (<- & El & Ef & Dd & Dt & Dc & Dh).
  - injection H as <-.
    exists (set_ticker x2 (t_next L)); split.
    + cbn [repeat run step]; unfold flushBufferPeriodically; rewrite T, E2.
      destruct L; reflexivity.
    + repeat split; simp_state; auto; history.
  - destruct (IH f1 x1 (set_ticker x2 (TFlush L f1)) r1 H Min)
      as (r2 & R & A1 & A2 & A3 & A4 & A5 & A6); auto.
    exists r2; split.
    + rewrite (run_S s2 ETicker (S n) (set_ticker x2 (TFlush L f1)));
        [exact R |].
      cbn [step]; unfold flushBufferPeriodically; rewrite T, E2; reflexivity.
    + simp_state; rewrite A4, A5, Dd, Dc.
      repeat split; auto; history.
Qed.

Lemma ticker_flush_alone L s :
  ticker s = TFlush L FLock -> mu (lg s) L = None ->
  exists r,
    run s (repeat ETicker (5 + List.length (buffer (lg s) L))) = Some r /\
    flush_effect L (lg s) (lg r) /\
    flushes r = flushes s ++ [(TTicker, L, buffer (lg s) L)] /\
    ticker r = t_next L /\ dispatcher r = dispatcher s /\
    closer r = closer s /\ same_history s r.
Proof.
  intros T Free.
  destruct (flush_alone_effect TTicker L s Free) as (r1 & R1 & Eff & Fl).
  destruct (ticker_flush_steps L (4 + List.length (buffer (lg s) L)) FLock
              s s r1 R1 (flush_alone_minimal TTicker L s Free)
              eq_refl eq_refl T)
    as (r & R & A1 & A2 & A3 & A4 & A5 & A6).
  exists r; split; [exact R |].
  rewrite A1, A2.
  split; [exact Eff |].
  repeat split; auto; apply A6.
Qed.

(** Three flushes in a row, INFO, DEBUG and ERROR. *)
Lemma three_flushes l l1 l2 l3 :
  flush_effect INFO l l1 -> flush_effect DEBUG l1 l2 ->
  flush_effect ERROR l2 l3 ->
  (forall L, buffer l3 L = [] /\
             sink l3 L = sink l L ++ map (render L) (buffer l L)) /\
  (forall K, mu l3 K = mu l K) /\
  logChannel l3 = logChannel l /\ chanClosed l3 = chanClosed l /\
  once_done l3 = once_done l /\ once_m l3 = once_m l /\ wg l3 = wg l /\
  bufferSize l3 = bufferSize l /\ log_level l3 = log_level l.
Proof.
  intros (B1 & S1 & O1 & M1 & C1 & CC1 & D1 & OM1 & W1 & Z1 & LL1)
         (B2 & S2 & O2 & M2 & C2 & CC2 & D2 & OM2 & W2 & Z2 & LL2)
         (B3 & S3 & O3 & M3 & C3 & CC3 & D3 & OM3 & W3 & Z3 & LL3).
  split.
  - intro L; destruct L.
    + destruct (O3 INFO ltac:(discriminate)) as [-> ->].
      destruct (O2 INFO ltac:(discriminate)) as [-> ->].
      split; assumption.
    + destruct (O3 DEBUG ltac:(discriminate)) as [-> ->].
      destruct (O1 DEBUG ltac:(discriminate)) as [E1 E2].
      rewrite B2, S2, E1, E2; split; reflexivity.
    + destruct (O2 ERROR ltac:(discriminate)) as [E1 E2].
      destruct (O1 ERROR ltac:(discriminate)) as [E3 E4].
      rewrite B3, S3, E1, E2, E3, E4; split; reflexivity.
  - split; [intro K; rewrite M3, M2, M1; reflexivity |].
    repeat split; congruence.
Qed.

(** X9: one tick empties everything.  When the ticker goroutine is
    waiting, the three buffer mutexes are free and no other goroutine
    moves, the tick is accepted and [flushBufferPeriodically] comes back
    to its wait after a known number of steps; it has flushed INFO, then
    DEBUG, then ERROR, each buffer is empty and its messages are at the
    end of its own sink in buffer order; the channel, the dispatcher and
    the invocations of [Close] are as before. *)
Theorem one_tick_empties_the_buffers (s : State) :
  ticker s = TWait -> (forall L, mu (lg s) L = None) ->
  exists s',
    run s (repeat ETicker
             (1 + (5 + List.length (buffer (lg s) INFO)) +
              (5 + List.length (buffer (lg s) DEBUG)) +
              (5 + List.length (buffer (lg s) ERROR)))) = Some s' /\
    ticker s' = TWait /\
    (forall L, buffer (lg s') L = [] /\
               sink (lg s') L =
                 sink (lg s) L ++ map (render L) (buffer (lg s) L)) /\
    flushes s' =
      flushes s ++ [(TTicker, INFO, buffer (lg s) INFO);
                    (TTicker, DEBUG, buffer (lg s) DEBUG);
                    (TTicker, ERROR, buffer (lg s) ERROR)] /\
    logChannel (lg s') = logChannel (lg s) /\
    dispatcher s' = dispatcher s /\ closer s' = closer s.
Proof.
  intros T Free.
  assert (S0 : step s ETicker = Some (set_ticker s (TFlush INFO FLock)))
    by (cbn [step]; unfold flushBufferPeriodically; rewrite T; reflexivity).
  destruct (ticker_flush_alone INFO (set_ticker s (TFlush INFO FLock))
              eq_refl (Free INFO))
    as (s1 & R1 & E1 & F1 & T1 & D1 & C1 & H1).
  simp_state.
  assert (Fr1 : mu (lg s1) DEBUG = None)
    by (destruct E1 as (_ & _ & _ & M & _); rewrite M; apply Free).
  pose proof E1 as (_ & _ & O1 & _).
  destruct (ticker_flush_alone DEBUG s1 T1 Fr1)
    as (s2 & R2 & E2 & F2 & T2 & D2 & C2 & H2).
  assert (Fr2 : mu (lg s2) ERROR = None).
  { destruct E2 as (_ & _ & _ & M2 & _), E1 as (_ & _ & _ & M1 & _).
    rewrite M2, M1; apply Free. }
  pose proof E2 as (_ & _ & O2 & _).
  destruct (ticker_flush_alone ERROR s2 T2 Fr2)
    as (s3 & R3 & E3 & F3 & T3 & D3 & C3 & H3).
  destruct (three_flushes _ _ _ _ E1 E2 E3) as (A & _ & Ch & _).
  exists s3; split.
  - destruct (O1 DEBUG ltac:(discriminate)) as [Eb _]; rewrite Eb in R2.
    destruct (O2 ERROR ltac:(discriminate)) as [Ec _].
    destruct (O1 ERROR ltac:(discriminate)) as [Ec' _].
    rewrite Ec, Ec' in R3.
    remember (5 + List.length (buffer (lg s) INFO))%nat as a.
    remember (5 + List.length (buffer (lg s) DEBUG))%nat as b.
    remember (5 + List.length (buffer (lg s) ERROR))%nat as c.
    rewrite !repeat_app, !run_app.
    cbn [repeat run]; rewrite S0, R1, R2; exact R3.
  - split; [exact T3 |].
    split; [exact A |].
    split.
    { rewrite F3, F2, F1, <- !app_assoc; cbn [app].
      destruct (O1 DEBUG ltac:(discriminate)) as [-> _].
      destruct (O2 ERROR ltac:(discriminate)) as [-> _].
      destruct (O1 ERROR ltac:(discriminate)) as [-> _].
      reflexivity. }
    split; [exact Ch |].
    split; congruence.
Qed.

Lemma one_tick_empties_the_buffers_witness :
  exists s',
    run (final (run (boot l0) trace_one)) (repeat ETicker 17) = Some s' /\
    sink (lg s') INFO = [render INFO m_a] /\ buffer (lg s') INFO = [].
Proof.
  assert (T : ticker (final (run (boot l0) trace_one)) = TWait)
    by (vm_compute; reflexivity).
  assert (F : forall L, mu (lg (final (run (boot l0) trace_one))) L = None)
    by (intro L; destruct L; vm_compute; reflexivity).
  destruct (one_tick_empties_the_buffers _ T F) as (s' & R & _ & A & _).
  exists s'; split; [exact R |].
  destruct (A INFO) as [B S]; split; [rewrite S; vm_compute; reflexivity | exact B].
Defined.

(* ------------------------------------------------------------------ *)
(** ** The dispatcher alone, any channel *)

(** A solo run of [flushBuffer] as steps of the dispatcher. *)
Lemma dispatcher_flush_steps L : forall n f s1 s2 r1,
  flushBuffer_run (S n) TDispatcher L f s1 = Some r1 ->
  flushBuffer_run n TDispatcher L f s1 = None ->
  lg s1 = lg s2 -> flushes s1 = flushes s2 -> dispatcher s2 = DFlush L f ->
  exists r2,
    run s2 (repeat EDispatcher (S n)) = Some r2 /\
    lg r2 = lg r1 /\ flushes r2 = flushes r1 /\ dispatcher r2 = DRecv /\
    ticker r2 = ticker s2 /\ closer r2 = closer s2 /\
    same_history s2 r2.
Proof.
  induction n as [| n IH]; intros f s1 s2 r1 H Min E F T;
    cbn [flushBuffer_run] in H, Min;
    pose proof (flushBuffer_data TDispatcher L f s1 s2 E F) as D;
    destruct (flushBuffer TDispatcher L f s1) as [[[f1 |] x1] |];
    try discriminate;
    destruct (flushBuffer TDispatcher L f s2) as [[o2 x2] |] eqn:E2;
    try contradiction;
    destruct D as (<- & El & Ef & Dd & Dt & Dc & Dh).
  - injection H as <-.
    exists (set_dispatcher x2 DRecv); split.
    + cbn [repeat run step]; unfold processLogMessages; rewrite T, E2.
      reflexivity.
    + repeat split; simp_state; auto; history.
  - destruct (IH f1 x1 (set_dispatcher x2 (DFlush L f1)) r1 H Min)
      as (r2 & R & A1 & A2 & A3 & A4 & A5 & A6); auto.
    exists r2; split.
    + rewrite (run_S s2 EDispatcher (S n) (set_dispatcher x2 (DFlush L f1)));
        [exact R |].
      cbn [step]; unfold processLogMessages; rewrite T, E2; reflexivity.
    + simp_state; rewrite A4, A5, Dt, Dc.
      repeat split; auto; history.
Qed.

Lemma dispatcher_flush_alone L s :
  dispatcher s = DFlush L FLock -> mu (lg s) L = None ->
  exists r,
    run s (repeat EDispatcher (5 + List.length (buffer (lg s) L))) = Some r /\
    flush_effect L (lg s) (lg r) /\
    flushes r = flushes s ++ [(TDispatcher, L, buffer (lg s) L)] /\
    dispatcher r = DRecv /\ ticker r = ticker s /\
    closer r = closer s /\ same_history s r.
Proof.
  intros T Free.
  destruct (flush_alone_effect TDispatcher L s Free) as (r1 & R1 & Eff & Fl).
  destruct (dispatcher_flush_steps L (4 + List.length (buffer (lg s) L)) FLock
              s s r1 R1 (flush_alone_minimal TDispatcher L s Free)
              eq_refl eq_refl T)
    as (r & R & A1 & A2 & A3 & A4 & A5 & A6).
  exists r; split; [exact R |].
  rewrite A1, A2.
  split; [exact Eff |].
  repeat split; auto; apply A6.
Qed.

(** Receive, lock, append, unlock, with everything left alone. *)
Lemma dispatch_append s L m q :
  dispatcher s = DRecv -> logChannel (lg s) = m :: q ->
  levelOf (level m) = Some L -> mu (lg s) L = None ->
  exists s',
    run s (repeat EDispatcher 4) = Some s' /\
    dispatcher s' =
      (if bufferSize (lg s) <=? Z.of_nat (List.length (buffer (lg s) L ++ [m]))
       then DFlush L FLock else DRecv) /\
    logChannel (lg s') = q /\
    buffer (lg s') L = buffer (lg s) L ++ [m] /\
    (forall K, K <> L -> buffer (lg s') K = buffer (lg s) K) /\
    sink (lg s') = sink (lg s) /\ flushes s' = flushes s /\
    dispatcher_frame s s'.
Proof.
  intros D C V F.
  do 4 dispatcher_step.
  eexists; split; [reflexivity |]; simp_state; rewrite !upd_same.
  unfold dispatcher_frame, same_history; simp_state.
  repeat split; try reflexivity.
  - intros K N; apply upd_other; exact N.
  - intro K; unfold upd; destruct (lvl_eqb_spec K L);
      [subst; auto | reflexivity].
Qed.

Lemma dispatcher_frame_refl s : dispatcher_frame s s.
Proof. unfold dispatcher_frame, same_history; repeat split; reflexivity. Qed.

Lemma dispatcher_frame_trans a b c :
  dispatcher_frame a b -> dispatcher_frame b c -> dispatcher_frame a c.
Proof.
  unfold dispatcher_frame, same_history.
  intros (M1 & A1) (M2 & A2); split.
  - intro K; rewrite M2, M1; reflexivity.
  - intuition congruence.
Qed.

Lemma in_order_nil L s s' :
  sink (lg s') L = sink (lg s) L -> buffer (lg s') L = buffer (lg s) L ->
  in_order L s s' [].
Proof. unfold in_order; intros -> ->; rewrite app_nil_r; reflexivity. Qed.

Lemma in_order_trans L a b c ms ns :
  in_order L a b ms -> in_order L b c ns -> in_order L a c (ms ++ ns).
Proof.
  unfold in_order; intros H1 H2.
  rewrite H2, map_app, app_assoc, H1, <- app_assoc, <- map_app, <- app_assoc.
  reflexivity.
Qed.

(** One message, from the channel to its buffer or, when that fills the
    buffer, to its sink. *)
Lemma dispatch_one s m q :
  dispatcher s = DRecv -> logChannel (lg s) = m :: q ->
  (forall K, mu (lg s) K = None) ->
  exists n s',
    run s (repeat EDispatcher n) = Some s' /\
    dispatcher s' = DRecv /\ logChannel (lg s') = q /\
    (forall L, in_order L s s' (filter (at_level L) [m])) /\
    dispatcher_frame s s'.
Proof.
  intros D C Free.
  destruct (levelOf (level m)) as [L |] eqn:V.
  - destruct (dispatch_append s L m q D C V (Free L))
      as (s1 & R1 & D1 & C1 & B1 & O1 & S1 & F1 & Fr1).
    assert (IO : forall K, in_order K s s1 (filter (at_level K) [m])).
    { intro K; cbn [filter]; rewrite (at_level_some m L K V).
      unfold in_order; rewrite S1.
      destruct (lvl_eqb_spec K L) as [-> | N];
        [rewrite B1 | rewrite (O1 K N), app_nil_r]; reflexivity. }
    destruct (bufferSize (lg s) <=?
              Z.of_nat (List.length (buffer (lg s) L ++ [m]))).
    + assert (Fr : mu (lg s1) L = None)
        by (destruct Fr1 as (M & _); rewrite M; apply Free).
      destruct (dispatcher_flush_alone L s1 D1 Fr)
        as (s2 & R2 & E2 & F2 & D2 & T2 & Cl2 & H2).
      exists (4 + (5 + List.length (buffer (lg s1) L)))%nat, s2.
      rewrite repeat_app, run_app, R1.
      split; [exact R2 |].
      split; [exact D2 |].
      destruct E2 as (EB & ES & EO & EM & EC & ECC & EOD & EOM & EW & EZ & ELL).
      split; [congruence |].
      split.
      * intro K; rewrite <- (app_nil_r (filter (at_level K) [m])).
        apply (in_order_trans K s s1 s2); [apply IO |].
        unfold in_order; rewrite app_nil_r.
        destruct (lvl_eqb_spec K L) as [-> | N].
        -- rewrite EB, ES, app_nil_r; reflexivity.
        -- destruct (EO K N) as [-> ->]; reflexivity.
      * apply (dispatcher_frame_trans s s1 s2 Fr1).
        unfold dispatcher_frame; repeat split; auto; apply H2.
    + exists 4%nat, s1; repeat split; auto; apply Fr1.
  - exists 2%nat.
    do 2 dispatcher_step.
    eexists; split; [reflexivity |]; simp_state.
    split; [reflexivity |]; split; [reflexivity |]; split.
    + intro K; cbn [filter]; rewrite (at_level_none m K V).
      apply in_order_nil; reflexivity.
    + unfold dispatcher_frame, same_history; simp_state.
      repeat split; reflexivity.
Qed.

(** The whole channel. *)
Lemma dispatch_all : forall msgs s,
  dispatcher s = DRecv -> logChannel (lg s) = msgs ->
  (forall K, mu (lg s) K = None) ->
  exists n s',
    run s (repeat EDispatcher n) = Some s' /\
    dispatcher s' = DRecv /\ logChannel (lg s') = [] /\
    (forall L, in_order L s s' (filter (at_level L) msgs)) /\
    dispatcher_frame s s'.
Proof.
  induction msgs as [| m q IH]; intros s D C Free.
  - exists O, s; split; [reflexivity |].
    repeat split; auto; try apply dispatcher_frame_refl.
    intro L; apply in_order_nil; reflexivity.
  - destruct (dispatch_one s m q D C Free) as (n1 & s1 & R1 & D1 & C1 & I1 & F1).
    assert (Free1 : forall K, mu (lg s1) K = None)
      by (intro K; destruct F1 as (M & _); rewrite M; apply Free).
    destruct (IH s1 D1 C1 Free1) as (n2 & s2 & R2 & D2 & C2 & I2 & F2).
    exists (n1 + n2)%nat, s2.
    rewrite repeat_app, run_app, R1.
    split; [exact R2 |].
    split; [exact D2 |]; split; [exact C2 |]; split.
    + intro L.
      change (filter (at_level L) (m :: q))
        with (filter (at_level L) ([m] ++ q)).
      rewrite filter_app.
      apply (in_order_trans L s s1 s2); [apply I1 | apply I2].
    + apply (dispatcher_frame_trans s s1 s2 F1 F2).
Qed.

(** X10: the dispatcher alone delivers in order.  From the head of its
    loop, with the buffer mutexes free and no other goroutine moving,
    the dispatcher empties the channel in finitely many steps and is
    back at the head of its loop; for each severity, the sink followed
    by the buffer then reads: what the sink held, what the buffer held,
    and the messages of that severity from the channel, in the order
    they were sent.  Messages of an unknown level are dropped. *)
Theorem dispatcher_alone_delivers_in_order (s : State) :
  dispatcher s = DRecv -> (forall K, mu (lg s) K = None) ->
  exists n s',
    run s (repeat EDispatcher n) = Some s' /\
    dispatcher s' = DRecv /\ logChannel (lg s') = [] /\
    forall L,
      sink (lg s') L ++ map (render L) (buffer (lg s') L) =
      sink (lg s) L ++
      map (render L)
        (buffer (lg s) L ++ filter (at_level L) (logChannel (lg s))).
Proof.
  intros D Free.
  destruct (dispatch_all (logChannel (lg s)) s D eq_refl Free)
    as (n & s' & R & D' & C' & I & _).
  exists n, s'; repeat split; auto.
Qed.

Lemma dispatcher_alone_delivers_in_order_witness :
  exists n s',
    run s_two (repeat EDispatcher n) = Some s' /\
    sink (lg s') INFO ++ map (render INFO) (buffer (lg s') INFO) =
      [render INFO m_a; render INFO m_b].
Proof.
  assert (D : dispatcher s_two = DRecv) by (vm_compute; reflexivity).
  assert (F : forall K, mu (lg s_two) K = None)
    by (intro K; destruct K; vm_compute; reflexivity).
  destruct (dispatcher_alone_delivers_in_order s_two D F)
    as (n & s' & R & _ & _ & A).
  exists n, s'; split; [exact R |].
  rewrite (A INFO); vm_compute; reflexivity.
Defined.

(* ------------------------------------------------------------------ *)
(** ** [Close] from call to return *)

Lemma set_closer_same s i c : closer (set_closer s i c) i = c.
Proof. cbn; rewrite Nat.eqb_refl; reflexivity. Qed.

Lemma set_closer_other s i c j :
  j <> i -> closer (set_closer s i c) j = closer s j.
Proof. intro N; cbn; destruct (Nat.eqb_spec j i); congruence. Qed.

(** A solo run of [flushBuffer] as steps of an invocation of [Close]. *)
Lemma closer_flush_steps i L : forall n f s1 s2 r1,
  flushBuffer_run (S n) (TCloser i) L f s1 = Some r1 ->
  flushBuffer_run n (TCloser i) L f s1 = None ->
  lg s1 = lg s2 -> flushes s1 = flushes s2 -> closer s2 i = CFlush L f ->
  exists r2,
    run s2 (repeat (EClose i) (S n)) = Some r2 /\
    lg r2 = lg r1 /\ flushes r2 = flushes r1 /\ closer r2 i = c_next L /\
    (forall j, j <> i -> closer r2 j = closer s2 j) /\
    dispatcher r2 = dispatcher s2 /\ ticker r2 = ticker s2 /\
    same_history s2 r2.
Proof.
  induction n as [| n IH]; intros f s1 s2 r1 H Min E F T;
    cbn [flushBuffer_run] in H, Min;
    pose proof (flushBuffer_data (TCloser i) L f s1 s2 E F) as D;
    destruct (flushBuffer (TCloser i) L f s1) as [[[f1 |] x1] |];
    try discriminate;
    destruct (flushBuffer (TCloser i) L f s2) as [[o2 x2] |] eqn:E2;
    try contradiction;
    destruct D as (<- & El & Ef & Dd & Dt & Dc & Dh).
  - injection H as <-.
    exists (set_closer x2 i (c_next L)); split.
    + cbn [repeat run step]; unfold Close; rewrite T, E2.
      destruct L; reflexivity.
    + split; [exact (eq_sym El) |]; split; [exact (eq_sym Ef) |].
      split; [apply set_closer_same |].
      split; [intros j N; rewrite set_closer_other, Dc by exact N; reflexivity |].
      repeat split; simp_state; auto; history.
  - destruct (IH f1 x1 (set_closer x2 i (CFlush L f1)) r1 H Min)
      as (r2 & R & A1 & A2 & A3 & A4 & A5 & A6 & A7); auto.
    { apply set_closer_same. }
    exists r2; split.
    + rewrite (run_S s2 (EClose i) (S n) (set_closer x2 i (CFlush L f1)));
        [exact R |].
      cbn [step]; unfold Close; rewrite T, E2; reflexivity.
    + split; [exact A1 |]; split; [exact A2 |]; split; [exact A3 |].
      split.
      { intros j N; rewrite (A4 j N), set_closer_other, Dc by exact N.
        reflexivity. }
      simp_state; rewrite A5, A6, Dd, Dt.
      repeat split; auto; history.
Qed.

Lemma closer_flush_alone i L s :
  closer s i = CFlush L FLock -> mu (lg s) L = None ->
  exists r,
    run s (repeat (EClose i) (5 + List.length (buffer (lg s) L))) = Some r /\
    flush_effect L (lg s) (lg r) /\
    flushes r = flushes s ++ [(TCloser i, L, buffer (lg s) L)] /\
    closer r i = c_next L /\
    (forall j, j <> i -> closer r j = closer s j) /\
    dispatcher r = dispatcher s /\ ticker r = ticker s /\ same_history s r.
Proof.
  intros T Free.
  destruct (flush_alone_effect (TCloser i) L s Free) as (r1 & R1 & Eff & Fl).
  destruct (closer_flush_steps i L (4 + List.length (buffer (lg s) L)) FLock
              s s r1 R1 (flush_alone_minimal (TCloser i) L s Free)
              eq_refl eq_refl T)
    as (r & R & A1 & A2 & A3 & A4 & A5 & A6 & A7).
  exists r; split; [exact R |].
  rewrite A1, A2.
  split; [exact Eff |].
  repeat split; auto; apply A7.
Qed.

(** One step of an invocation of [Close] from a known program point. *)
Ltac closer_step :=
  erewrite run_S
    by (cbn [step]; unfold Close; simp_state; rewrite ?Nat.eqb_refl;
        simp_state;
        repeat match goal with
               | E : _ = _ |- _ => rewrite E
               end;
        reflexivity).

(** From the call to [wg.Wait]: five steps that close the channel. *)
Lemma Close_enters s i :
  closer s i = CIdle -> once_done (lg s) = false -> once_m (lg s) = None ->
  chanClosed (lg s) = false ->
  exists s1,
    run s (repeat (EClose i) 5) = Some s1 /\
    closer s1 i = CWait /\ (forall j, j <> i -> closer s1 j = closer s j) /\
    chanClosed (lg s1) = true /\ runs s1 = S (runs s) /\
    logChannel (lg s1) = logChannel (lg s) /\
    buffer (lg s1) = buffer (lg s) /\ sink (lg s1) = sink (lg s) /\
    mu (lg s1) = mu (lg s) /\ wg (lg s1) = wg (lg s) /\
    dispatcher s1 = dispatcher s /\ ticker s1 = ticker s /\
    flushes s1 = flushes s.
Proof.
  intros C D M Ch.
  do 5 closer_step.
  eexists; split; [reflexivity |]; simp_state.
  rewrite ?Nat.eqb_refl.
  split; [reflexivity |].
  split; [| repeat split; reflexivity].
  intros j N; destruct (Nat.eqb_spec j i); [congruence | reflexivity].
Qed.

(** From [wg.Wait] with the dispatcher gone to the return: the three
    flushes, the store of [done] and the unlock. *)
Lemma Close_finishes s i :
  closer s i = CWait -> wg (lg s) = 0 -> (forall L, mu (lg s) L = None) ->
  exists s',
    run s (repeat (EClose i)
             (1 + (5 + List.length (buffer (lg s) INFO)) +
              (5 + List.length (buffer (lg s) DEBUG)) +
              (5 + List.length (buffer (lg s) ERROR)) + 2)) = Some s' /\
    closer s' i = CReturned /\
    (forall j, j <> i -> closer s' j = closer s j) /\
    (forall L, buffer (lg s') L = [] /\
               sink (lg s') L =
                 sink (lg s) L ++ map (render L) (buffer (lg s) L)) /\
    once_done (lg s') = true /\ once_m (lg s') = None /\
    chanClosed (lg s') = chanClosed (lg s) /\
    logChannel (lg s') = logChannel (lg s) /\
    dispatcher s' = dispatcher s /\ ticker s' = ticker s /\
    flushes s' =
      flushes s ++ [(TCloser i, INFO, buffer (lg s) INFO);
                    (TCloser i, DEBUG, buffer (lg s) DEBUG);
                    (TCloser i, ERROR, buffer (lg s) ERROR)].
Proof.
  intros C W Free.
  assert (S0 : step s (EClose i) = Some (set_closer s i (CFlush INFO FLock)))
    by (cbn [step]; unfold Close; rewrite C, W; reflexivity).
  destruct (closer_flush_alone i INFO (set_closer s i (CFlush INFO FLock))
              (set_closer_same _ _ _) (Free INFO))
    as (s1 & R1 & E1 & F1 & C1 & J1 & D1 & T1 & H1).
  simp_state.
  assert (Fr1 : mu (lg s1) DEBUG = None)
    by (destruct E1 as (_ & _ & _ & M & _); rewrite M; apply Free).
  pose proof E1 as (_ & _ & O1 & _).
  destruct (closer_flush_alone i DEBUG s1 C1 Fr1)
    as (s2 & R2 & E2 & F2 & C2 & J2 & D2 & T2 & H2).
  assert (Fr2 : mu (lg s2) ERROR = None).
  { destruct E2 as (_ & _ & _ & M2 & _), E1 as (_ & _ & _ & M1 & _).
    rewrite M2, M1; apply Free. }
  pose proof E2 as (_ & _ & O2 & _).
  destruct (closer_flush_alone i ERROR s2 C2 Fr2)
    as (s3 & R3 & E3 & F3 & C3 & J3 & D3 & T3 & H3).
  destruct (three_flushes _ _ _ _ E1 E2 E3)
    as (A & _ & Ch & CC & _).
  destruct (O1 DEBUG ltac:(discriminate)) as [Eb _].
  destruct (O2 ERROR ltac:(discriminate)) as [Ec _].
  destruct (O1 ERROR ltac:(discriminate)) as [Ec' _].
  assert (R4 : run s3 (repeat (EClose i) 2) =
               Some (set_closer
                       (set_lg (set_closer
                                  (set_lg s3 (set_once_done (lg s3) true))
                                  i CUnlockM)
                          (set_once_m (set_once_done (lg s3) true) None))
                       i CReturned)).
  { cbn [c_next] in C3. do 2 closer_step. reflexivity. }
  eexists; split.
  - rewrite Eb in R2; rewrite Ec, Ec' in R3.
    remember (5 + List.length (buffer (lg s) INFO))%nat as a.
    remember (5 + List.length (buffer (lg s) DEBUG))%nat as b.
    remember (5 + List.length (buffer (lg s) ERROR))%nat as c.
    rewrite !repeat_app, !run_app.
    cbn [repeat run] in *; rewrite S0, R1, R2, R3; exact R4.
  - simp_state; rewrite ?Nat.eqb_refl.
    split; [reflexivity |].
    split.
    { intros j N; destruct (Nat.eqb_spec j i); [congruence |].
      rewrite (J3 j N), (J2 j N), (J1 j N); cbn.
      destruct (Nat.eqb_spec j i); [congruence | reflexivity]. }
    split; [exact A |].
    split; [reflexivity |]; split; [reflexivity |].
    split; [exact CC |]; split; [exact Ch |].
    split; [congruence |]; split; [congruence |].
    rewrite F3, F2, F1, Eb, Ec, Ec', <- !app_assoc; reflexivity.
Qed.

(** X11: shutdown delivers everything, in order.  When [Close] is
    called for the first time while the dispatcher is at the head of its
    loop and the buffer mutexes are free, and only this invocation and
    the dispatcher move, then after finitely many steps the invocation
    has returned, the dispatcher has ended, the channel and the three
    buffers are empty, and the sink of each severity has received, after
    what it held, the lines of the messages that were in the buffer and
    then of those that were in the channel, in the order they were
    sent. *)
Theorem Close_alone_delivers_everything (s : State) (i : nat) :
  closer s i = CIdle -> once_done (lg s) = false -> once_m (lg s) = None ->
  chanClosed (lg s) = false -> dispatcher s = DRecv -> wg (lg s) = 1 ->
  (forall L, mu (lg s) L = None) ->
  exists n k s',
    run s (repeat (EClose i) 5 ++ repeat EDispatcher n ++
           repeat (EClose i) k) = Some s' /\
    closer s' i = CReturned /\ dispatcher s' = DDone /\
    once_done (lg s') = true /\ chanClosed (lg s') = true /\
    logChannel (lg s') = [] /\
    forall L,
      buffer (lg s') L = [] /\
      sink (lg s') L =
        sink (lg s) L ++
        map (render L)
          (buffer (lg s) L ++ filter (at_level L) (logChannel (lg s))).
Proof.
  intros C Dn Om Ch D W Free.
  destruct (Close_enters s i C Dn Om Ch)
    as (s1 & R1 & C1 & _ & Ch1 & _ & Q1 & B1 & S1 & M1 & W1 & D1 & _).
  assert (Free1 : forall K, mu (lg s1) K = None)
    by (intro K; rewrite M1; apply Free).
  rewrite <- D1 in D.
  destruct (dispatch_all (logChannel (lg s1)) s1 D eq_refl Free1)
    as (n & s2 & R2 & D2 & Q2 & I2 & Fr2).
  destruct Fr2 as (M2 & Ch2 & _ & _ & W2 & _ & _ & _ & Cl2 & _).
  assert (R3 : step s2 EDispatcher =
               Some (set_dispatcher (set_lg s2 (set_wg (lg s2) (wg (lg s2) - 1)))
                       DDone)).
  { cbn [step]; unfold processLogMessages; rewrite D2, Q2, Ch2, Ch1.
    reflexivity. }
  destruct (Close_finishes
              (set_dispatcher (set_lg s2 (set_wg (lg s2) (wg (lg s2) - 1))) DDone)
              i)
    as (s4 & R4 & C4 & _ & A4 & Dn4 & _ & Ch4 & Q4 & D4 & _).
  { simp_state; rewrite Cl2; exact C1. }
  { simp_state; rewrite W2, W1, W; reflexivity. }
  { intro K; simp_state; rewrite M2; apply Free1. }
  simp_state.
  eexists (n + 1)%nat, _, s4; split.
  - rewrite run_app, R1, repeat_app, <- app_assoc, run_app, R2.
    cbn [repeat app run]; rewrite R3; exact R4.
  - split; [exact C4 |]; split; [exact D4 |]; split; [exact Dn4 |].
    split; [rewrite Ch4, Ch2; exact Ch1 |].
    split; [rewrite Q4; exact Q2 |].
    intro L; destruct (A4 L) as [B S]; split; [exact B |].
    rewrite S; pose proof (I2 L) as IO; unfold in_order in IO.
    rewrite IO, S1, B1, Q1; reflexivity.
Qed.


Lemma Close_alone_delivers_everything_witness :
  exists n k s',
    run s_two (repeat (EClose 0) 5 ++ repeat EDispatcher n ++
               repeat (EClose 0) k) = Some s' /\
    closer s' 0%nat = CReturned /\
    sink (lg s') INFO = [render INFO m_a; render INFO m_b].
Proof.
  assert (H1 : closer s_two 0 = CIdle) by (vm_compute; reflexivity).
  assert (H2 : once_done (lg s_two) = false) by (vm_compute; reflexivity).
  assert (H3 : once_m (lg s_two) = None) by (vm_compute; reflexivity).
  assert (H4 : chanClosed (lg s_two) = false) by (vm_compute; reflexivity).
  assert (H5 : dispatcher s_two = DRecv) by (vm_compute; reflexivity).
  assert (H6 : wg (lg s_two) = 1) by (vm_compute; reflexivity).
  assert (H7 : forall L, mu (lg s_two) L = None)
    by (intro L; destruct L; vm_compute; reflexivity).
  destruct (Close_alone_delivers_everything s_two 0 H1 H2 H3 H4 H5 H6 H7)
    as (n & k & s' & R & C & _ & _ & _ & _ & A).
  exists n, k, s'; split; [exact R |]; split; [exact C |].
  destruct (A INFO) as [_ S]; rewrite S; vm_compute; reflexivity.
Defined.

(** X12: the final flushes see everything.  In every reachable state
    the wait group is 1 while [processLogMessages] runs and 0 once it
    has returned, never anything else; and an invocation of [Close] that
    is past [wg.Wait] finds the dispatcher ended and the channel closed
    and empty, so every message accepted by a logging call is already in
    a buffer, in the [tmp] of a flush or in a sink when the final
    flushes begin. *)
Theorem final_flush_after_drain (s : State) (i : nat) :
  reachable s ->
  (wg (lg s) = 0 \/ wg (lg s) = 1) /\
  (wg (lg s) = 0 <-> dispatcher s = DDone) /\
  (past_wait (closer s i) = true ->
     dispatcher s = DDone /\ chanClosed (lg s) = true /\
     logChannel (lg s) = [] /\
     forall L,
       Permutation
         (sink (lg s) L ++
          map (render L)
            (buffer (lg s) L ++ f_carried (t_flushing (ticker s)) L ++
             closer_held s L))
         (owed s L)).
Proof.
  intro R; pose proof (reachable_inv s R) as (_ & F & K).
  destruct F as (W & D1 & D2 & _ & PW & _).
  assert (DD : d_done (dispatcher s) = true <-> dispatcher s = DDone).
  { destruct (dispatcher s); cbn; split; congruence. }
  split; [rewrite W; destruct (d_done (dispatcher s)); auto |].
  split.
  - rewrite W, <- DD; destruct (d_done (dispatcher s)); split;
      congruence || lia.
  - intro P; pose proof (PW i P) as Dn.
    split; [apply DD; exact Dn |].
    split; [exact (D1 Dn) |]; split; [exact (D2 Dn) |].
    intro L; apply (Permutation_count_occ string_dec); intro x.
    specialize (K L x); unfold occ, pending in K.
    rewrite (D2 Dn) in K.
    replace (d_held (dispatcher s) L) with (@nil logMessage) in K
      by (apply DD in Dn; rewrite Dn; reflexivity).
    rewrite count_occ_app; exact K.
Qed.

Lemma final_flush_after_drain_witness :
  dispatcher s_closed = DDone /\ wg (lg s_closed) = 0.
Proof.
  assert (R : reachable s_closed)
    by (apply reachable_sample; vm_compute; discriminate).
  destruct (final_flush_after_drain s_closed 0 R) as (_ & A & _).
  assert (W : wg (lg s_closed) = 0) by (vm_compute; reflexivity).
  split; [apply A; exact W | exact W].
Defined.

(* ------------------------------------------------------------------ *)
(** ** Flushes triggered by the size *)

Lemma size_inv_boot size interval min :
  0 < size -> size_inv (boot (fresh size interval min)).
Proof.
  intros P L _; cbn.
  split; [reflexivity |]; split; [constructor |].
  split; [discriminate |]; split; [reflexivity | discriminate].
Qed.

Lemma no_tick_before s x L :
  filter (by_tick L) (flushes s ++ [x]) = [] ->
  filter (by_tick L) (flushes s) = [] /\ by_tick L x = false.
Proof.
  rewrite filter_app; intro H; apply app_eq_nil in H; destruct H as [A B].
  split; [exact A |]; cbn in B; destruct (by_tick L x); [discriminate | reflexivity].
Qed.

Ltac size_unfold :=
  unfold size_inv, no_tick, size_flushes, stock, sent, full in *; simp_state.

Ltac size_open I L N :=
  first [ specialize (I L N)
        | let Nx := fresh "Nx" in
          apply no_tick_before in N; destruct N as [N Nx];
          specialize (I L N) ];
  destruct I as (E & S & MF & ND & DD).

Ltac size_crunch :=
  use_pcs_keep;
  cbn [must_flush in_hand early d_done lvl_ltb by_size by_tick] in *;
  unfold upd in *;
  rewrite ?filter_app, ?map_app, ?concat_app in *;
  cbn [filter map List.concat by_size by_tick snd app] in *;
  split_eqb;
  cbn [filter map List.concat by_size by_tick snd app orb andb] in *;
  rewrite ?app_nil_r, <- ?app_assoc in *;
  try congruence; try lia; auto.

Ltac size_finish :=
  repeat match goal with
         | H : ?a = ?a -> _ |- _ => specialize (H eq_refl)
         | H : false = true -> _ |- _ => clear H
         | H : true = false -> _ |- _ => clear H
         | E : logChannel ?l = _, H : context [filter _ (logChannel ?l)] |- _ =>
             rewrite E in H
         | E : levelOf (level ?m) = Some ?l, H : context [at_level _ ?m] |- _ =>
             rewrite (at_level_some m l _ E) in H
         | E : levelOf (level ?m) = None, H : context [at_level _ ?m] |- _ =>
             rewrite (at_level_none m _ E) in H
         end;
  cbn [filter app] in *;
  repeat match goal with
         | H : context [at_level ?a ?b] |- _ =>
             lazymatch type of H with
             | at_level _ _ = _ => fail
             | _ => destruct (at_level a b) eqn:?
             end
         end;
  split_eqb; cbn [app] in *; rewrite ?app_nil_r, <- ?app_assoc in *;
  cbn [app] in *;
  repeat split; try (intro; discriminate); try assumption;
  try congruence; try lia; auto;
  try (intros _; eexists; split; [eassumption | assumption]);
  try (apply Forall_app; split;
       [assumption | constructor; [assumption | constructor]]);
  repeat match goal with
         | |- context [?a <=? ?b] => destruct (Z.leb_spec a b)
         end;
  rewrite ?List.length_app in *; cbn [List.length] in *;
  try (intro; discriminate); try (intros _; lia).

Lemma size_inv_step s e s' :
  reachable s -> size_inv s -> step s e = Some s' -> size_inv s'.
Proof.
  intros R I H L N.
  destruct (reachable_inv s R) as (M & F & _).
  pose proof (reachable_bound s R) as (_ & _ & _ & BF & BB).
  pose proof (reachable_bufferSize s R) as Pos.
  destruct F as (W & D1 & D2 & PC & PW & _).
  destruct e.
  1-3: apply step_logging in H;
       destruct H as [-> | K v' now' Op -> | K v' Op -> ];
       [ exact (I L N) | | ];
       size_unfold; size_open I L N;
       (split; [exact E |]; split; [exact S |]; split; [exact MF |]);
       (split; [| intro Dn; specialize (D1 Dn); congruence]);
       intro Dn; specialize (ND Dn); rewrite ?filter_app, <- ND, <- ?app_assoc;
       reflexivity.
  - step_cases H; size_unfold; size_open I L N.
    all: pose proof (BF L); pose proof (BB L); size_crunch.
    all: size_finish.
  - step_cases H; size_unfold; size_open I L N.
    all: pose proof (BF L); pose proof (BB L); size_crunch.
    all: split_vars; cbn [orb andb] in *; try congruence.
    all: size_finish.
    all: match goal with
         | E : lvl_ltb ?a ?a || _ = true |- _ => destruct a; discriminate E
         end.
  - step_cases H; size_unfold; size_open I L N.
    all: pose proof (BF L); pose proof (BB L); pose proof (PW i);
         size_crunch.
    all: size_finish.
    all: match goal with
         | P : past_wait _ = true -> d_done (dispatcher ?s0) = true |- _ =>
             specialize (P eq_refl); destruct (dispatcher s0);
             try discriminate P; cbn; intro; discriminate
         end.
Qed.

Lemma reachable_size s : reachable s -> size_inv s.
Proof.
  revert s; apply reachable_ind.
  - intros; apply size_inv_boot; assumption.
  - intros s e s' R I H; exact (size_inv_step s e s' R I H).
Qed.

(** Messages of one level that fill the buffer up to the size: the
    dispatcher alone flushes once, after the last append, what the buffer
    held and then those messages, in their order. *)
Lemma dispatch_to_size s L msgs q :
  dispatcher s = DRecv -> logChannel (lg s) = msgs ++ q ->
  Forall (fun m => levelOf (level m) = Some L) msgs -> msgs <> [] ->
  mu (lg s) L = None ->
  full s (buffer (lg s) L ++ msgs) ->
  exists s',
    run s (repeat EDispatcher
             (4 * List.length msgs +
              (5 + List.length (buffer (lg s) L ++ msgs)))) = Some s' /\
    flushes s' = flushes s ++ [(TDispatcher, L, buffer (lg s) L ++ msgs)] /\
    sink (lg s') L =
      sink (lg s) L ++ map (render L) (buffer (lg s) L ++ msgs) /\
    buffer (lg s') L = [] /\ logChannel (lg s') = q /\
    dispatcher s' = DRecv.
Proof.
  unfold full; intros D C V NE F Z.
  destruct msgs as [| m0 ms] using rev_ind; [congruence |].
  clear IHms NE; rename ms into pre, m0 into m.
  apply Forall_app in V; destruct V as [Vp Vm].
  inversion Vm as [| ? ? Vm' _]; subst.
  rewrite <- app_assoc in C.
  rewrite !List.length_app in *; cbn [List.length] in *.
  destruct (dispatch_fill L pre s ([m] ++ q) D C Vp F)
    as (s1 & R1 & D1 & C1 & B1 & F1 & S1 & Fl1 & Z1); [lia |].
  destruct (dispatch_message s1 L m q D1 C1 Vm' F1)
    as (s2 & R2 & D2 & C2 & B2 & F2 & S2 & Fl2 & Z2).
  assert (N : (bufferSize (lg s1) <=?
               Z.of_nat (List.length (buffer (lg s1) L ++ [m]))) = true).
  { apply Z.leb_le; rewrite B1, Z1, !List.length_app; cbn [List.length]; lia. }
  rewrite N in D2.
  destruct (dispatch_flush s2 L D2 F2)
    as (s3 & R3 & D3 & B3 & S3 & Fl3 & C3 & F3 & Z3).
  exists s3.
  replace (4 * (List.length pre + 1) +
           (5 + (List.length (buffer (lg s) L) + (List.length pre + 1))))%nat
    with (4 * List.length pre + (4 + (5 + List.length (buffer (lg s2) L))))%nat
    by (rewrite B2, B1, !List.length_app; cbn [List.length]; lia).
  rewrite repeat_app, run_app, R1, repeat_app, run_app, R2.
  split; [exact R3 |].
  rewrite Fl3, S3, C3, B2, B1, Fl2, Fl1, S2, S1, C2, <- !app_assoc.
  repeat split; auto.
Qed.

(** Lists of the same positive length whose concatenation, followed by
    fewer elements than that, has that length: there is one list. *)
Lemma one_block {A} (n : Z) (B : list (list A)) (rest Q : list A) :
  Forall (fun b => Z.of_nat (List.length b) = n) B ->
  List.concat B ++ rest = Q -> Z.of_nat (List.length Q) = n ->
  Z.of_nat (List.length rest) < n -> B = [Q].
Proof.
  intros S E Z Lt.
  assert (Len : (List.length (List.concat B) + List.length rest =
                 List.length Q)%nat) by (rewrite <- E, List.length_app; lia).
  destruct B as [| b B]; [cbn in Len; lia |].
  apply Forall_cons_iff in S; destruct S as [Sb SB].
  cbn [List.concat] in *; rewrite List.length_app in Len.
  destruct B as [| b' B].
  - cbn [List.concat List.length] in *; rewrite app_nil_r in *.
    destruct rest; [rewrite app_nil_r in E; congruence |].
    cbn [List.length] in *; lia.
  - apply Forall_cons_iff in SB; destruct SB as [Sb' _].
    cbn [List.concat] in Len; rewrite List.length_app in Len; lia.
Qed.

(** The flushes of the ticker goroutine are recorded by its own steps
    only. *)
Lemma no_tick_step s e s' L :
  e <> ETicker -> step s e = Some s' ->
  filter (by_tick L) (flushes s') = filter (by_tick L) (flushes s).
Proof.
  intros NE H; by_event e H; simp_state; try congruence;
    rewrite ?filter_app; cbn [filter by_tick]; rewrite ?app_nil_r;
    reflexivity.
Qed.

Lemma no_tick_run L es : forall s s',
  Forall (fun e => e <> ETicker) es -> run s es = Some s' ->
  filter (by_tick L) (flushes s') = filter (by_tick L) (flushes s).
Proof.
  induction es as [| e es IH]; intros s s' NE H; simpl in H.
  - injection H as <-; reflexivity.
  - apply Forall_cons_iff in NE; destruct NE as [Ne NE].
    destruct (step s e) as [s1 |] eqn:E; [| discriminate].
    rewrite (IH s1 s' NE H); exact (no_tick_step s e s1 L Ne E).
Qed.

(** [k] calls of [Error], each followed by the dispatcher until it is
    back at the head of its loop. *)
Lemma send_and_dispatch k : forall s,
  idle s ->
  exists es s',
    Forall (fun e => e <> ETicker) es /\ run s es = Some s' /\ idle s' /\
    queued s' = queued s ++ repeat m_e k /\
    bufferSize (lg s') = bufferSize (lg s).
Proof.
  induction k as [| k IH]; intros s (D & C & Free & Op).
  - exists [], s; rewrite app_nil_r; repeat split; auto.
  - set (s1 := enqueue s ERROR [] t0).
    assert (E1 : step s (EError [] t0) = Some s1).
    { cbn [step]; unfold Error, emit, trySend, s1, enqueue;
      rewrite Op, C; reflexivity. }
    destruct (dispatch_all [m_e] s1) as (n & s2 & R2 & D2 & C2 & _ & F2);
      [exact D | subst s1; simp_state; rewrite C; reflexivity
      | intro K; subst s1; simp_state; apply Free |].
    destruct F2 as (M2 & Op2 & _ & _ & _ & Z2 & _ & _ & _ & Q2 & _).
    destruct (IH s2) as (es & s3 & NE & R3 & I3 & Q3 & Z3).
    { repeat split; auto.
      - intro K; rewrite M2; subst s1; simp_state; apply Free.
      - rewrite Op2; subst s1; simp_state; exact Op. }
    exists (EError [] t0 :: repeat EDispatcher n ++ es), s3.
    split; [| split; [| split; [exact I3 | split]]].
    + constructor; [discriminate |].
      apply Forall_app; split; [| exact NE].
      apply Forall_forall; intros e In; apply repeat_spec in In; subst e.
      discriminate.
    + cbn [run]; rewrite E1, run_app, R2; exact R3.
    + rewrite Q3, Q2; subst s1; simp_state.
      rewrite <- app_assoc; reflexivity.
    + rewrite Z3, Z2; subst s1; reflexivity.
Qed.

(** For every size, also above the capacity of the channel, there is a
    reachable state in which exactly [bufferSize] messages of one level
    were sent and dispatched with no periodic flush. *)
Lemma dispatched_at_any_size (size interval : Z) :
  0 < size ->
  exists s,
    reachable s /\ bufferSize (lg s) = size /\ no_tick s ERROR /\
    full s (sent s ERROR) /\ dispatched s ERROR.
Proof.
  intro P.
  pose proof (reachable_boot size interval "DEBUG" P) as R0.
  destruct (send_and_dispatch (Z.to_nat size)
              (boot (fresh size interval "DEBUG")))
    as (es & s & NE & R & (D & C & _ & _) & Q & Z);
    [repeat split; reflexivity |].
  exists s; split; [exact (reachable_run _ es s R0 R) |].
  split; [exact Z |]; split; [| split].
  - unfold no_tick; rewrite (no_tick_run ERROR es _ s NE R); reflexivity.
  - unfold full, sent; rewrite Q, Z; cbn [queued boot app].
    rewrite forallb_filter_id, repeat_length; [cbn; lia |].
    apply forallb_forall; intros x In; apply repeat_spec in In; subst x.
    reflexivity.
  - unfold dispatched; rewrite C, D; repeat split.
Qed.

(** C6: in every reachable state, the dispatcher appends and compares
    the length with the size in one step taken with the mutex of that
    level held, and it holds no buffer mutex when it enters the flush.
    Whatever the schedule and the size, as long as no periodic flush has
    copied the buffer of that level: every flush the dispatcher called
    took exactly [bufferSize] messages, and these flushes, one after the
    other, took the messages sent at that level in the order they were
    sent, leaving fewer than [bufferSize] of them once the dispatcher has
    appended all; so when exactly [bufferSize] messages of the level were
    sent and the dispatcher has appended them, there is one flush, of
    exactly these messages in that order.  And the flush does come: when
    the dispatcher is at the head of its loop, the mutex is free and the
    channel starts with the messages that fill the buffer up to its
    size, the dispatcher running alone appends them and flushes once,
    after the last one, writing the lines of the buffer in order. *)
Theorem size_triggered_flush (s : State) (L : lvl) (msgs q : list logMessage) :
  reachable s ->
  (forall m, dispatcher s = DAppend L m ->
     mu (lg s) L = Some TDispatcher /\
     step s EDispatcher =
       Some (set_dispatcher
               (set_lg s (set_buffer (lg s) L (buffer (lg s) L ++ [m])))
               (DUnlock L (bufferSize (lg s) <=?
                           Z.of_nat (List.length (buffer (lg s) L ++ [m])))))) /\
  (dispatcher s = DFlush L FLock ->
     forall K, mu (lg s) K <> Some TDispatcher) /\
  (no_tick s L ->
     Forall (full s) (size_flushes s L) /\
     exists rest,
       List.concat (size_flushes s L) ++ rest = sent s L /\
       (dispatched s L -> Z.of_nat (List.length rest) < bufferSize (lg s))) /\
  (no_tick s L -> full s (sent s L) -> dispatched s L ->
     size_flushes s L = [sent s L]) /\
  (dispatcher s = DRecv -> logChannel (lg s) = msgs ++ q ->
   Forall (fun m => levelOf (level m) = Some L) msgs ->
   mu (lg s) L = None -> full s (buffer (lg s) L ++ msgs) ->
   exists s',
     run s (repeat EDispatcher
              (4 * List.length msgs +
               (5 + List.length (buffer (lg s) L ++ msgs)))) = Some s' /\
     flushes s' = flushes s ++ [(TDispatcher, L, buffer (lg s) L ++ msgs)] /\
     sink (lg s') L =
       sink (lg s) L ++ map (render L) (buffer (lg s) L ++ msgs) /\
     buffer (lg s') L = [] /\ logChannel (lg s') = q /\
     dispatcher s' = DRecv).
Proof.
  intro R; destruct (reachable_inv s R) as ((A & _ & _) & _ & _).
  pose proof (reachable_bound s R) as (_ & _ & _ & BF & _).
  assert (G : no_tick s L ->
              Forall (full s) (size_flushes s L) /\
              exists rest,
                List.concat (size_flushes s L) ++ rest = sent s L /\
                (dispatched s L ->
                 Z.of_nat (List.length rest) < bufferSize (lg s))).
  { intro N; destruct (reachable_size s R L N) as (_ & S & _ & ND & DD).
    split; [exact S |].
    destruct (d_done (dispatcher s)) eqn:Dn.
    - destruct (DD eq_refl) as (rest & E & Lt); exists rest; auto.
    - exists (stock s L ++ in_hand (dispatcher s) L ++
              filter (at_level L) (logChannel (lg s))).
      split; [exact (ND eq_refl) |].
      intros (C & Hd & MF); rewrite C, Hd, !app_nil_r.
      specialize (BF L MF); unfold stock.
      destruct (dispatcher s) as [| | | | K [] |]; try exact BF;
        destruct (lvl_eqb L K); cbn [List.length]; lia. }
  split; [| split; [| split; [exact G | split]]].
  - intros m D; split.
    + apply A; cbn [holds]; rewrite D; cbn.
      destruct (lvl_eqb_spec L L); [reflexivity | congruence].
    + cbn [step]; unfold processLogMessages; rewrite D; reflexivity.
  - intros D K E; apply A in E; cbn [holds] in E; rewrite D in E.
    cbn in E; rewrite andb_false_r in E; discriminate.
  - intros N Fu Di; destruct (G N) as (S & rest & E & Lt).
    exact (one_block _ _ rest _ S E Fu (Lt Di)).
  - intros D C V F Fu.
    apply (dispatch_to_size s L msgs q D C V); [| exact F | exact Fu].
    intros ->; rewrite app_nil_r in Fu; unfold full in Fu.
    assert (MF : must_flush (dispatcher s) L = false) by (rewrite D; reflexivity).
    specialize (BF L MF); lia.
Qed.

Lemma size_triggered_flush_witness :
  (exists s',
     run s_two (repeat EDispatcher 15) = Some s' /\
     flushes s' = [(TDispatcher, INFO, [m_a; m_b])] /\
     sink (lg s') INFO = [render INFO m_a; render INFO m_b]) /\
  size_flushes s_size INFO = [[m_a; m_b]].
Proof.
  split.
  - assert (R : reachable s_two)
      by (apply reachable_sample; vm_compute; discriminate).
    destruct (size_triggered_flush s_two INFO [m_a; m_b] [] R)
      as (_ & _ & _ & _ & H).
    destruct H as (s' & X & Y & Z & _); try reflexivity.
    + repeat constructor.
    + exists s'; repeat split; assumption.
  - assert (R : reachable s_size)
      by (apply reachable_sample; vm_compute; discriminate).
    assert (N : no_tick s_size INFO) by (vm_compute; reflexivity).
    assert (Fu : full s_size (sent s_size INFO)) by (vm_compute; reflexivity).
    assert (Di : dispatched s_size INFO)
      by (repeat split; vm_compute; reflexivity).
    assert (Q : sent s_size INFO = [m_a; m_b]) by (vm_compute; reflexivity).
    destruct (size_triggered_flush s_size INFO [] [] R) as (_ & _ & _ & H & _).
    rewrite <- Q; exact (H N Fu Di).
Defined.
